(** * sketchy: count-min sketches and rolling rate counters

    A shallow embedding of the Go package [sketchy] (hash.go, the count-min
    sketch, the rolling counter and the rollup counter) together with the
    properties of its specification.

    Conventions of the embedding.
    - [uint64] and [uint] (64-bit targets) are integers of [Z] reduced by
      [u64]; [int], [int64] and [time.Duration] are integers of [Z] reduced
      by [s64] (two's complement).
    - [float64] is the kernel's binary64 type [float]; every conversion and
      operation is the IEEE one, so results are bit-exact.
    - [time.Time] is an integer number of nanoseconds; [Time.Sub] saturates
      at the bounds of [time.Duration] as in the Go library.
    - a Go run-time panic (index out of range, integer division by zero) is
      the result [None]; a method that mutates its receiver returns the
      receiver's state as it is when the method stops, next to the result.
    - the mutex is not modelled (every method is run to completion), and the
      injected clock is the argument [now] of the public methods. *)

From Stdlib Require Import ZArith Floats Strings.Byte Strings.String.
From stdpp Require Import base tactics option list.
From Stdlib Require Import Lia.

Local Open Scope Z_scope.

(** ** Machine integers *)

Definition u64 (z : Z) : Z := z mod 2 ^ 64.

Definition s64 (z : Z) : Z := (z + 2 ^ 63) mod 2 ^ 64 - 2 ^ 63.

Definition MaxUint64 : Z := 2 ^ 64 - 1.
Definition MaxInt64 : Z := 2 ^ 63 - 1.
Definition MinInt64 : Z := - 2 ^ 63.

(** [float64(x)] for an integer [x]: the nearest binary64, ties to even. *)
Definition float64_of_Z (z : Z) : float :=
  SF2Prim (binary_normalize prec emax z 0 false).

(** ** hash.go *)

Definition fnvOffset64 : Z := 14695981039346656037.
Definition fnvPrime64 : Z := 1099511628211.

Definition hashKernel : Type := Z.

Definition byte_val (b : byte) : Z := Z.of_N (Byte.to_N b).

(** [func (k hashKernel) hash(index uint) uint64] *)
Definition hashKernel_hash (k : hashKernel) (index : Z) : Z :=
  let v := u64 k in
  u64 (Z.land v 0xffffffff + u64 (Z.shiftr v 32 * u64 index)).

(** [func multihash(key []byte) hashKernel]: the [range] loop over the key. *)
Fixpoint multihash_loop (key : list byte) (k : Z) : Z :=
  match key with
  | [] => k
  | b :: key' => multihash_loop key' (Z.lxor (u64 (k * fnvPrime64)) (byte_val b))
  end.

Definition multihash (key : list byte) : hashKernel :=
  multihash_loop key (u64 fnvOffset64).

(** ** The count-min sketch *)

Record fnvSketch : Type := mkSketch {
  Epsilon : float;
  Delta : float;
  Width : Z;
  Depth : Z;
  Matrix : list Z
}.

(** [j := uint(k.hash(i)) % r.Width; k := i*r.Width + j]: the index of the
    cell of row [i]; the remainder panics when the width is zero. *)
Definition cell_index (width : Z) (k : hashKernel) (i : Z) : option Z :=
  if width =? 0 then None
  else Some (u64 (i * width + hashKernel_hash k i mod width)).

(** The loop of [fnvSketch.Count]: [fuel] rows are left, [i] is the row,
    [m] the matrix and [min] the running minimum. The matrix is returned as
    the loop leaves it, also when an index panics. *)
Fixpoint Count_loop (width : Z) (k : hashKernel) (d : Z)
    (fuel : nat) (i : Z) (m : list Z) (min : Z) : list Z * option Z :=
  match fuel with
  | O => (m, Some min)
  | S fuel' =>
      match cell_index width k i with
      | None => (m, None)
      | Some c =>
          match m !! Z.to_nat c with
          | None => (m, None)
          | Some old =>
              let v := u64 (old + d) in
              Count_loop width k d fuel' (i + 1) (<[Z.to_nat c := v]> m)
                (if v <? min then v else min)
          end
      end
  end.

(** [func (r *fnvSketch) Count(key []byte, delta int) uint64] *)
Definition fnvSketch_Count (r : fnvSketch) (key : list byte) (delta : Z)
    : fnvSketch * option Z :=
  let '(m, res) :=
    Count_loop (Width r) (multihash key) (u64 delta)
      (Z.to_nat (Depth r)) 0 (Matrix r) MaxUint64 in
  (mkSketch (Epsilon r) (Delta r) (Width r) (Depth r) m, res).

(** The loop of [fnvSketch.Query]. *)
Fixpoint Query_loop (width : Z) (k : hashKernel)
    (fuel : nat) (i : Z) (m : list Z) (min : Z) : option Z :=
  match fuel with
  | O => Some min
  | S fuel' =>
      match cell_index width k i with
      | None => None
      | Some c =>
          match m !! Z.to_nat c with
          | None => None
          | Some v =>
              Query_loop width k fuel' (i + 1) m (if v <? min then v else min)
          end
      end
  end.

(** [func (r *fnvSketch) Query(key []byte) uint64] *)
Definition fnvSketch_Query (r : fnvSketch) (key : list byte) : option Z :=
  Query_loop (Width r) (multihash key) (Z.to_nat (Depth r)) 0 (Matrix r) MaxUint64.


(** ** Instants and durations *)

Definition Second : Z := 1000000000.
Definition Minute : Z := 60 * Second.
Definition Hour : Z := 60 * Minute.

(** [t.Add(d)] *)
Definition Time_Add (t d : Z) : Z := t + d.

(** [t.Sub(u)]: the difference, or the largest (smallest) duration when it
    does not fit. *)
Definition Time_Sub (t u : Z) : Z :=
  if t - u >? MaxInt64 then MaxInt64
  else if t - u <? MinInt64 then MinInt64
  else t - u.

(** [t.After(u)] *)
Definition Time_After (t u : Z) : bool := u <? t.

(** ** Floating point helpers of package [math] *)

Definition math_E : float := 0x1.5bf0a8b145769p+1%float.

(** [math.Ceil]: the least integral value not below [x]; zeros, infinities and
    NaN are returned as they are. *)
Definition math_Ceil (x : float) : float :=
  match Prim2SF x with
  | S754_finite s m e =>
      if e >=? 0 then x
      else
        let q := Z.pos m / 2 ^ (- e) in
        if s then (if q =? 0 then (-0)%float else float64_of_Z (- q))
        else float64_of_Z (if Z.pos m mod 2 ^ (- e) =? 0 then q else q + 1)
  | _ => x
  end.

(** ** Timestamped sketches and the rolling counter: data *)

Definition DefaultEpsilon : float := 0x1.ff7ced916872bp-1%float.
Definition DefaultDelta : float := 0x1.fae147ae147aep-1%float.

Record sketchWithTime : Type := mkBucket {
  CountSketch : option fnvSketch;
  Time : Z
}.

Record rollingCounter : Type := mkRolling {
  rlEpsilon : float;
  rlDelta : float;
  Interval : Z;
  NumIntervals : Z;
  buckets : list sketchWithTime
}.

Record rollupCounter : Type := mkRollup {
  Levels : list rollingCounter
}.

(** [func (b *sketchWithTime) Count(key []byte, delta int) uint64] *)
Definition sketchWithTime_Count (b : sketchWithTime) (key : list byte) (delta : Z)
    : sketchWithTime * option Z :=
  match CountSketch b with
  | None => (b, Some 0)
  | Some r =>
      let '(r', res) := fnvSketch_Count r key delta in
      (mkBucket (Some r') (Time b), res)
  end.

(** [func (b *sketchWithTime) Query(key []byte) uint64] *)
Definition sketchWithTime_Query (b : sketchWithTime) (key : list byte) : option Z :=
  match CountSketch b with
  | None => Some 0
  | Some r => fnvSketch_Query r key
  end.

(** [func RollingCounter(epsilon, delta float64, interval time.Duration, num int) RateSketch] *)
Definition RollingCounter (epsilon delta : float) (interval num : Z) : rollingCounter :=
  mkRolling epsilon delta interval num [].

(** ** The rate walk *)

(** What one iteration of the loop of [rollingCounter.query] does. *)
Inductive iteration : Type :=
| Skipped
| Stopped
| Counted (n : float) (d : Z) (interval : Z).

(** "determine number of counts in bucket": the override for the newest
    bucket when it is not zero, the bucket's own count otherwise. *)
Definition bucket_count (rl : rollingCounter) (key : list byte) (latest : Z)
    (i : nat) (b : sketchWithTime) : option float :=
  if (Z.of_nat i =? Z.of_nat (length (buckets rl)) - 1) && negb (latest =? 0)
  then Some (float64_of_Z latest)
  else float64_of_Z <$> sketchWithTime_Query b key.

(** The body of the loop at index [i], bucket [b = rl.buckets[i]], cursor [now]
    and remaining [interval]. *)
Definition query_body (rl : rollingCounter) (key : list byte) (intervalStart : Z)
    (latest : Z) (i : nat) (b : sketchWithTime) (now interval : Z) : option iteration :=
  let d := Time_Sub now (Time b) in
  if d <=? 0 then Some Skipped
  else
    let interval := s64 (interval - d) in
    n ← bucket_count rl key latest i b;
    if Time_After intervalStart (Time b) then
      let end_ := Time_Add (Time b) (Interval rl) in
      let end_ := if Time_After end_ now then now else end_ in
      let d2 := Time_Sub end_ intervalStart in
      if s64 (d - d2) >? Interval rl then Some Stopped
      else Some (Counted (n * float64_of_Z d2 / float64_of_Z d)%float
                   (Time_Sub now intervalStart) interval)
    else Some (Counted n d interval).

(** The loop [for i := len(rl.buckets) - 1; interval > 0 && i >= 0; i--]:
    [fuel] is [i + 1]. *)
Fixpoint query_loop (rl : rollingCounter) (key : list byte) (intervalStart : Z)
    (latest : Z) (fuel : nat) (now interval : Z) (tc : float) (td : Z)
    : option (float * Z) :=
  match fuel with
  | O => Some (tc, td)
  | S i =>
      if interval >? 0 then
        match buckets rl !! i with
        | None => None
        | Some b =>
            match query_body rl key intervalStart latest i b now interval with
            | None => None
            | Some Skipped => query_loop rl key intervalStart latest i now interval tc td
            | Some Stopped => Some (tc, td)
            | Some (Counted n d interval') =>
                query_loop rl key intervalStart latest i (Time b) interval'
                  (tc + n)%float (s64 (td + d))
            end
        end
      else Some (tc, td)
  end.

(** [func (rl *rollingCounter) query(key, now, interval, latest) (float64, time.Duration)] *)
Definition rollingCounter_query (rl : rollingCounter) (key : list byte)
    (now interval latest : Z) : option (float * Z) :=
  let intervalStart := Time_Add now (s64 (- interval)) in
  '(tc, td) ← query_loop rl key intervalStart latest (length (buckets rl))
                now interval 0%float 0;
  if td <? Second then Some (0%float, 0) else Some (tc, td).

(** The last two lines of [Query] and [Count]. *)
Definition rate (tc : float) (d : Z) : float :=
  if d =? 0 then 0%float
  else (tc / float64_of_Z d * float64_of_Z Second)%float.

(** [func (rl *rollingCounter) Query(key []byte, interval time.Duration) float64],
    with [now] the reading of the clock. *)
Definition rollingCounter_Query (rl : rollingCounter) (key : list byte)
    (interval now : Z) : option float :=
  if Z.of_nat (length (buckets rl)) =? 0 then Some 0%float
  else
    '(tc, d) ← rollingCounter_query rl key now interval 0;
    Some (rate tc d).

(** [func (rc *rollupCounter) Query(key []byte, interval time.Duration) float64]:
    the loop over the levels. *)
Fixpoint rollup_query_loop (levels : list rollingCounter) (key : list byte)
    (now interval : Z) (tc : float) (td : Z) : option (float * Z) :=
  match levels with
  | [] => Some (tc, td)
  | c :: levels' =>
      if interval <=? 0 then Some (tc, td)
      else
        '(n, d) ← rollingCounter_query c key now interval 0;
        rollup_query_loop levels' key (Time_Add now (s64 (- d))) (s64 (interval - d))
          (tc + n)%float (s64 (td + d))
  end.

Definition rollupCounter_Query (rc : rollupCounter) (key : list byte)
    (interval now : Z) : option float :=
  '(tc, td) ← rollup_query_loop (Levels rc) key now interval 0%float 0;
  Some (rate tc td).

(** [func RollupCounter(epsilon, delta float64, durations ...time.Duration) RateSketch]:
    the levels built from consecutive durations; a zero divisor panics. *)
Fixpoint rollup_levels (epsilon delta : float) (durations : list Z)
    : option (list rollingCounter) :=
  match durations with
  | from :: ((to :: _) as rest) =>
      if from =? 0 then None
      else
        let n := s64 (Z.quot to from) in
        let n := if Z.rem to from >? 0 then s64 (n + 1) else n in
        (fun ls => mkRolling epsilon delta from n [] :: ls)
          <$> rollup_levels epsilon delta rest
  | _ => Some []
  end.

(** [make([]*rollingCounter, len(durations)-1)] panics on an empty list. *)
Definition RollupCounter (epsilon delta : float) (durations : list Z)
    : option rollupCounter :=
  if Z.of_nat (length durations) - 1 <? 0 then None
  else mkRollup <$> rollup_levels epsilon delta durations.

(** ** Construction of sketches and the write path

    Two things of the Go run time are taken as given: [math.Log], and what a
    conversion of a [float64] to [uint] yields when the value is not
    representable (the language leaves it to the implementation). *)

Section WritePath.

Variable math_Log : float -> float.
Variable uint_conv_overflow : float -> Z.

(** [uint(x)] for a [float64]: truncation toward zero. *)
Definition uint_of_float (x : float) : Z :=
  match Prim2SF x with
  | S754_zero _ => 0
  | S754_finite s m e =>
      let q := if e >=? 0 then Z.pos m * 2 ^ e else Z.pos m / 2 ^ (- e) in
      if q =? 0 then 0
      else if negb s && (q <? 2 ^ 64) then q
      else uint_conv_overflow x
  | _ => uint_conv_overflow x
  end.

(** [func NewSketch(epsilon, delta float64) CountSketch] *)
Definition NewSketch (epsilon delta : float) : fnvSketch :=
  let epsilon := if (epsilon =? 0)%float then DefaultEpsilon else epsilon in
  let delta := if (delta =? 0)%float then DefaultDelta else delta in
  let width := uint_of_float (math_Ceil (math_E / (1 - epsilon))) in
  let depth := uint_of_float (math_Ceil (math_Log (1 / (1 - delta)))) in
  mkSketch epsilon delta width depth (replicate (Z.to_nat (u64 (width * depth))) 0).

Definition getWithDefault (v def : float) : float :=
  if (v =? 0)%float then def else v.

(** The bucket list after the rotation step of [rollingCounter.count]. *)
Definition rotate (rl : rollingCounter) (now : Z) : list sketchWithTime :=
  let epsilon := getWithDefault (rlEpsilon rl) DefaultEpsilon in
  let d := getWithDefault (rlDelta rl) DefaultDelta in
  match last (buckets rl) with
  | None => [mkBucket (Some (NewSketch epsilon d)) now]
  | Some newest =>
      if Time_Sub now (Time newest) >=? Interval rl then
        let newSketch := mkBucket (Some (NewSketch epsilon d)) now in
        if Z.of_nat (length (buckets rl)) >=? NumIntervals rl
        then drop 1 (buckets rl) ++ [newSketch]
        else buckets rl ++ [newSketch]
      else buckets rl
  end.

(** [func (rl *rollingCounter) count(key, delta, now, interval) (float64, time.Duration)] *)
Definition rollingCounter_count (rl : rollingCounter) (key : list byte)
    (delta now interval : Z) : rollingCounter * option (float * Z) :=
  let bs := rotate rl now in
  let with_buckets bs' :=
    mkRolling (rlEpsilon rl) (rlDelta rl) (Interval rl) (NumIntervals rl) bs' in
  match last bs with
  | None => (with_buckets bs, None)
  | Some newest =>
      let '(newest', latest) := sketchWithTime_Count newest key delta in
      let rl' := with_buckets (<[pred (length bs) := newest']> bs) in
      match latest with
      | None => (rl', None)
      | Some latest => (rl', rollingCounter_query rl' key now interval latest)
      end
  end.

(** [func (rl *rollingCounter) Count(key []byte, delta int, interval time.Duration) float64],
    with [now] the reading of the clock. *)
Definition rollingCounter_Count (rl : rollingCounter) (key : list byte)
    (delta interval now : Z) : rollingCounter * option float :=
  let '(rl', res) := rollingCounter_count rl key delta now interval in
  (rl', (fun '(tc, d) => rate tc d) <$> res).

(** [func (rc *rollupCounter) Count(key []byte, delta int, interval time.Duration) float64]:
    the loop over the levels. *)
Fixpoint rollup_count_loop (levels : list rollingCounter) (key : list byte)
    (delta now interval : Z) (tc : float) (td : Z)
    : list rollingCounter * option (float * Z) :=
  match levels with
  | [] => ([], Some (tc, td))
  | c :: levels' =>
      let interval := if interval <? 0 then 0 else interval in
      let '(c', res) := rollingCounter_count c key delta now interval in
      match res with
      | None => (c' :: levels', None)
      | Some (n, d) =>
          let '(levels'', res') :=
            rollup_count_loop levels' key delta now (s64 (interval - d))
              (tc + n)%float (s64 (td + d)) in
          (c' :: levels'', res')
      end
  end.

Definition rollupCounter_Count (rc : rollupCounter) (key : list byte)
    (delta interval now : Z) : rollupCounter * option float :=
  let '(levels, res) := rollup_count_loop (Levels rc) key delta now interval 0%float 0 in
  (mkRollup levels, (fun '(tc, td) => rate tc td) <$> res).

(** A client's calls on a rolling counter, each with the clock's reading. *)
Inductive call : Type :=
| CallCount (key : list byte) (delta interval now : Z)
| CallQuery (key : list byte) (interval now : Z).

Definition run_call (rl : rollingCounter) (c : call) : rollingCounter :=
  match c with
  | CallCount key delta interval now => (rollingCounter_Count rl key delta interval now).1
  | CallQuery key interval now => rl
  end.

Definition run_calls (rl : rollingCounter) (cs : list call) : rollingCounter :=
  foldl run_call rl cs.

(** The test "Going back in time": writes of 1, 2, ..., [n] one minute apart,
    the i-th at [T + i] minutes, on a counter of minute buckets. *)
Definition minute_writes (T : Z) (n : nat) : rollingCounter :=
  foldl (fun rl i => (rollingCounter_Count rl (list_byte_of_string "key") i 0
                        (T + i * Minute)).1)
    (RollingCounter 0 0 Minute 10) (seqZ 1 (Z.of_nat n)).

End WritePath.


(** ** Serialization

    [encoding/gob] is outside the repository: an encoder turns one value into
    a chunk of the buffer (or fails), a decoder reads one value of the type of
    its destination off the front of the buffer (or fails). *)

Inductive gobValue : Type :=
| GobFloat (x : float)
| GobInt (n : Z)
| GobBuckets (bs : list sketchWithTime).

Inductive gobError : Type := EncodeError | DecodeError.

Section Gob.

Variable Buffer : Type.
Variable buf_empty : Buffer.
Variable buf_append : Buffer -> Buffer -> Buffer.
Variable gob_Encode : gobValue -> option Buffer.
Variable gob_Decode_float : Buffer -> option (float * Buffer).
Variable gob_Decode_int : Buffer -> option (Z * Buffer).
Variable gob_Decode_buckets : Buffer -> option (list sketchWithTime * Buffer).

(** [for _, v := range []interface{}{...} { if err := encoder.Encode(v); ... }] *)
Fixpoint encode_each (vs : list gobValue) (buf : Buffer) : Buffer + gobError :=
  match vs with
  | [] => inl buf
  | v :: vs' =>
      match gob_Encode v with
      | None => inr EncodeError
      | Some chunk => encode_each vs' (buf_append buf chunk)
      end
  end.

(** [func (rl *rollingCounter) GobEncode() ([]byte, error)] *)
Definition rollingCounter_GobEncode (rl : rollingCounter) : Buffer + gobError :=
  encode_each
    [GobFloat (rlEpsilon rl); GobFloat (rlDelta rl); GobInt (Interval rl);
     GobInt (NumIntervals rl); GobBuckets (buckets rl)]
    buf_empty.

(** [func (rl *rollingCounter) GobDecode(data []byte) error]: the fields are
    assigned one after the other, so an error leaves the earlier ones set. *)
Definition rollingCounter_GobDecode (rl : rollingCounter) (data : Buffer)
    : rollingCounter * option gobError :=
  match gob_Decode_float data with
  | None => (rl, Some DecodeError)
  | Some (e, data) =>
      let rl := mkRolling e (rlDelta rl) (Interval rl) (NumIntervals rl) (buckets rl) in
      match gob_Decode_float data with
      | None => (rl, Some DecodeError)
      | Some (d, data) =>
          let rl := mkRolling (rlEpsilon rl) d (Interval rl) (NumIntervals rl) (buckets rl) in
          match gob_Decode_int data with
          | None => (rl, Some DecodeError)
          | Some (iv, data) =>
              let rl := mkRolling (rlEpsilon rl) (rlDelta rl) iv (NumIntervals rl) (buckets rl) in
              match gob_Decode_int data with
              | None => (rl, Some DecodeError)
              | Some (num, data) =>
                  let rl := mkRolling (rlEpsilon rl) (rlDelta rl) (Interval rl) num (buckets rl) in
                  match gob_Decode_buckets data with
                  | None => (rl, Some DecodeError)
                  | Some (bs, _) =>
                      (mkRolling (rlEpsilon rl) (rlDelta rl) (Interval rl)
                         (NumIntervals rl) bs, None)
                  end
              end
          end
      end
  end.

(** What the round trip asks of the codec: a chunk written by the encoder,
    whatever follows it, is read back as the value it was written from. *)
Record gob_codec_ok : Prop := {
  buf_append_assoc : forall a b c,
    buf_append (buf_append a b) c = buf_append a (buf_append b c);
  buf_append_empty : forall a, buf_append buf_empty a = a;
  buf_append_empty_r : forall a, buf_append a buf_empty = a;
  decode_float_encode : forall x chunk rest,
    gob_Encode (GobFloat x) = Some chunk ->
    gob_Decode_float (buf_append chunk rest) = Some (x, rest);
  decode_int_encode : forall n chunk rest,
    gob_Encode (GobInt n) = Some chunk ->
    gob_Decode_int (buf_append chunk rest) = Some (n, rest);
  decode_buckets_encode : forall bs chunk rest,
    gob_Encode (GobBuckets bs) = Some chunk ->
    gob_Decode_buckets (buf_append chunk rest) = Some (bs, rest)
}.

End Gob.

(** A codec for which the round trip conditions hold: the buffer is the
    list of the values written. *)
Definition list_Encode (v : gobValue) : option (list gobValue) := Some [v].

Definition list_Decode_float (buf : list gobValue) : option (float * list gobValue) :=
  match buf with GobFloat x :: rest => Some (x, rest) | _ => None end.

Definition list_Decode_int (buf : list gobValue) : option (Z * list gobValue) :=
  match buf with GobInt n :: rest => Some (n, rest) | _ => None end.

Definition list_Decode_buckets (buf : list gobValue)
    : option (list sketchWithTime * list gobValue) :=
  match buf with GobBuckets bs :: rest => Some (bs, rest) | _ => None end.

(** ** Auxiliary notions used by the statements *)

(** A sketch as [NewSketch] builds it: a positive width and a matrix that
    holds every row; the length of a Go slice fits an [int]. *)
Definition sketch_wf (r : fnvSketch) : Prop :=
  0 < Width r /\ 0 <= Depth r /\
  Width r * Depth r <= Z.of_nat (length (Matrix r)) /\
  Z.of_nat (length (Matrix r)) < 2 ^ 63.

Definition bucket_wf (b : sketchWithTime) : Prop :=
  forall r, CountSketch b = Some r -> sketch_wf r.

Definition rolling_wf (rl : rollingCounter) : Prop := Forall bucket_wf (buckets rl).

(** The cell of row [i] when nothing wraps. *)
Definition row_cell (width : Z) (k : hashKernel) (i : Z) : Z :=
  i * width + hashKernel_hash k i mod width.

(** The running minimum of [Count] and [Query]. *)
Definition min_step (min v : Z) : Z := if v <? min then v else min.

(** The cells a key indexes, one per row of [rows], read off the matrix [m]. *)
Definition row_cells (width : Z) (k : hashKernel) (m : list Z) (rows : list Z)
    : option (list Z) :=
  mapM (fun i => c ← cell_index width k i; m !! Z.to_nat c) rows.

(** The same counter with every instant moved by [c]. *)
Definition shift_bucket (c : Z) (b : sketchWithTime) : sketchWithTime :=
  mkBucket (CountSketch b) (Time b + c).

Definition shift_counter (c : Z) (rl : rollingCounter) : rollingCounter :=
  mkRolling (rlEpsilon rl) (rlDelta rl) (Interval rl) (NumIntervals rl)
    (shift_bucket c <$> buckets rl).

(** The rollup query as the specification words it: level after level, each
    level's walk with no override gives [(n, d)], which is added to the
    totals, moves the cursor back by [d] and shortens the interval by [d],
    until the interval is used up or no level is left. *)
Inductive rollup_walk (key : list byte)
    : list rollingCounter -> Z -> Z -> float -> Z -> float -> Z -> Prop :=
| rollup_walk_used_up levels now interval tc td :
    interval <= 0 -> rollup_walk key levels now interval tc td tc td
| rollup_walk_no_level now interval tc td :
    rollup_walk key [] now interval tc td tc td
| rollup_walk_level c levels now interval tc td n d tc' td' :
    0 < interval ->
    rollingCounter_query c key now interval 0 = Some (n, d) ->
    rollup_walk key levels (now - d) (interval - d) (tc + n)%float (td + d) tc' td' ->
    rollup_walk key (c :: levels) now interval tc td tc' td'.

Definition key_bytes : list byte := list_byte_of_string "key".

(** The indices of the cells a key indexes in a sketch of the given width
    and depth, one per row. *)
Definition key_cells (width : Z) (k : hashKernel) (depth : Z) : list nat :=
  (fun i => Z.to_nat (row_cell width k i)) <$> seqZ 0 depth.

#[local] Instance byte_eq_dec : EqDecision byte := Byte.byte_eq_dec.

(** A stream of [Count] calls on a sketch, the number of occurrences of one
    key in it, and the total it inserts. *)
Definition apply_counts (r : fnvSketch) (ops : list (list byte * Z)) : fnvSketch :=
  foldl (fun r op => (fnvSketch_Count r op.1 op.2).1) r ops.

Fixpoint true_count (k : list byte) (ops : list (list byte * Z)) : Z :=
  match ops with
  | [] => 0
  | op :: ops' => (if decide (k = op.1) then op.2 else 0) + true_count k ops'
  end.

Fixpoint total_mass (ops : list (list byte * Z)) : Z :=
  match ops with
  | [] => 0
  | op :: ops' => op.2 + total_mass ops'
  end.

(** Every cell is between 0 and [N], and the cells of every key are at least
    the key's count [cnt]. *)
Definition counts_bounded (r : fnvSketch) (cnt : list byte -> Z) (N : Z) : Prop :=
  (forall j v, Matrix r !! j = Some v -> 0 <= v <= N) /\
  (forall k i, 0 <= i < Depth r ->
     exists v, Matrix r !! Z.to_nat (row_cell (Width r) (multihash k) i) = Some v /\
               cnt k <= v).

(** Bucket starts in increasing order, each at least [gap] after the one
    before. *)
Fixpoint spaced (gap : Z) (ts : list Z) : Prop :=
  match ts with
  | t :: ((u :: _) as ts') => t + gap <= u /\ spaced gap ts'
  | _ => True
  end.

(** The iteration of the walk at index [i]: the loop body on [rl.buckets[i]]. *)
Definition iteration_at (rl : rollingCounter) (key : list byte) (intervalStart : Z)
    (latest : Z) (i : nat) (now interval : Z) : option iteration :=
  b ← buckets rl !! i; query_body rl key intervalStart latest i b now interval.

(** [math.Log] and the conversion of unrepresentable values as fixed for the
    concrete runs below: a logarithm that is about 4.605 (that of 100, which
    is what the default delta asks for), and zero. *)
Definition refLog (x : float) : float := 0x1.26bb1bbb55515p+2%float.
Definition refOvf (x : float) : Z := 0.

(** * Properties *)

(** ** Machine arithmetic *)

Lemma u64_range z : 0 <= u64 z < 2 ^ 64.
Proof. unfold u64. apply Z.mod_pos_bound. lia. Qed.

Lemma u64_small z : 0 <= z < 2 ^ 64 -> u64 z = z.
Proof. intros H. unfold u64. apply Z.mod_small. exact H. Qed.

Lemma s64_range z : MinInt64 <= s64 z <= MaxInt64.
Proof.
  unfold s64, MinInt64, MaxInt64.
  pose proof (Z.mod_pos_bound (z + 2 ^ 63) (2 ^ 64)). lia.
Qed.

Lemma s64_small z : MinInt64 <= z <= MaxInt64 -> s64 z = z.
Proof.
  unfold s64, MinInt64, MaxInt64. intros H.
  rewrite Z.mod_small by lia. lia.
Qed.

(** ** The hash kernel *)

Lemma multihash_loop_range key k : 0 <= k < 2 ^ 64 -> 0 <= multihash_loop key k < 2 ^ 64.
Proof.
  revert k. induction key as [|b key IH]; intros k Hk; simpl; [exact Hk|].
  apply IH. split.
  - apply Z.lxor_nonneg. pose proof (u64_range (k * fnvPrime64)).
    assert (0 <= byte_val b) by (unfold byte_val; lia). lia.
  - assert (Hb : 0 <= byte_val b < 2 ^ 64).
    { unfold byte_val. pose proof (Byte.to_N_bounded b). lia. }
    pose proof (u64_range (k * fnvPrime64)) as Hu.
    set (x := u64 (k * fnvPrime64)) in *. set (y := byte_val b) in *.
    destruct (Z.eq_dec (Z.lxor x y) 0) as [->|Hne]; [lia|].
    assert (Hpos : 0 < Z.lxor x y).
    { assert (0 <= Z.lxor x y) by (apply Z.lxor_nonneg; lia). lia. }
    apply Z.log2_lt_pow2; [exact Hpos|].
    eapply Z.le_lt_trans; [apply Z.log2_lxor; lia|].
    apply Z.max_lub_lt.
    + destruct (Z.eq_dec x 0) as [->|]; [simpl; lia|].
      apply Z.log2_lt_pow2; lia.
    + destruct (Z.eq_dec y 0) as [->|]; [simpl; lia|].
      apply Z.log2_lt_pow2; lia.
Qed.

Lemma multihash_range key : 0 <= multihash key < 2 ^ 64.
Proof. apply multihash_loop_range. apply u64_range. Qed.

Lemma multihash_loop_snoc key b k :
  multihash_loop (key ++ [b]) k =
  Z.lxor (u64 (multihash_loop key k * fnvPrime64)) (byte_val b).
Proof. revert k. induction key as [|a key IH]; intros k; simpl; [reflexivity|apply IH]. Qed.

Lemma hashKernel_hash_formula k i :
  0 <= k < 2 ^ 64 ->
  hashKernel_hash k i = (Z.land k 0xFFFFFFFF + Z.shiftr k 32 * i) mod 2 ^ 64.
Proof.
  intros Hk. unfold hashKernel_hash. rewrite (u64_small k Hk). unfold u64.
  rewrite Z.add_mod_idemp_r by lia.
  rewrite <- (Z.add_mod_idemp_r _ (Z.shiftr k 32 * i)) by lia.
  rewrite <- (Z.add_mod_idemp_r _ (Z.shiftr k 32 * (i mod 2 ^ 64))) by lia.
  rewrite Z.mul_mod_idemp_r by lia. reflexivity.
Qed.

(** ** The count-min sketch *)

Lemma cell_index_wf w k i :
  0 < w -> 0 <= i -> (i + 1) * w <= 2 ^ 64 ->
  cell_index w k i = Some (row_cell w k i) /\
  i * w <= row_cell w k i < (i + 1) * w.
Proof.
  intros Hw Hi Hb. unfold cell_index, row_cell.
  pose proof (Z.mod_pos_bound (hashKernel_hash k i) w Hw) as Hm.
  destruct (Z.eqb_spec w 0); [lia|].
  split; [|lia]. f_equal. apply u64_small. nia.
Qed.

Lemma Query_loop_min w k m fuel : forall i min,
  Query_loop w k fuel i m min =
  (vs ← row_cells w k m (seqZ i (Z.of_nat fuel)); Some (foldl min_step min vs)).
Proof.
  induction fuel as [|fuel IH]; intros i min; [reflexivity|].
  rewrite seqZ_cons by lia.
  replace (Z.pred (Z.of_nat (S fuel))) with (Z.of_nat fuel) by lia.
  replace (Z.succ i) with (i + 1) by lia.
  unfold row_cells in *. simpl.
  destruct (cell_index w k i) as [c|]; [|reflexivity]. simpl.
  destruct (m !! Z.to_nat c) as [v|]; [|reflexivity]. simpl.
  rewrite IH.
  destruct (mapM _ (seqZ (i + 1) (Z.of_nat fuel))); reflexivity.
Qed.

Lemma Count_loop_wf w k d : 0 < w -> forall fuel i m min,
  0 <= i ->
  (i + Z.of_nat fuel) * w <= Z.of_nat (length m) ->
  Z.of_nat (length m) < 2 ^ 64 ->
  exists m' v,
    Count_loop w k d fuel i m min = (m', Some v) /\
    length m' = length m /\
    Query_loop w k fuel i m' min = Some v /\
    (forall j, Z.of_nat j < i * w -> m' !! j = m !! j) /\
    (forall i', i <= i' < i + Z.of_nat fuel ->
       m' !! Z.to_nat (row_cell w k i') =
       (fun old => u64 (old + d)) <$> m !! Z.to_nat (row_cell w k i')).
Proof.
  intros Hw. induction fuel as [|fuel IH]; intros i m min Hi Hlen Hmax.
  - exists m, min. simpl. repeat split; try reflexivity. intros; lia.
  - assert (Hrow : (i + 1) * w <= 2 ^ 64) by nia.
    destruct (cell_index_wf w k i Hw Hi Hrow) as [Hc Hcr].
    assert (Hin : (Z.to_nat (row_cell w k i) < length m)%nat) by nia.
    destruct (lookup_lt_is_Some_2 m _ Hin) as [old Hold].
    set (v := u64 (old + d)).
    set (m1 := <[Z.to_nat (row_cell w k i) := v]> m).
    assert (Hlen1 : length m1 = length m) by apply length_insert.
    destruct (IH (i + 1) m1 (if v <? min then v else min)) as
      (m' & r & HC & HL & HQ & Hkeep & Hupd); [lia|rewrite Hlen1; lia|rewrite Hlen1; lia|].
    assert (Hread : m' !! Z.to_nat (row_cell w k i) = Some v).
    { rewrite Hkeep by lia. apply list_lookup_insert_eq. exact Hin. }
    exists m', r. simpl. rewrite Hc, Hold. fold v. fold m1.
    split; [exact HC|]. split; [congruence|]. split.
    { rewrite Hread. exact HQ. } split.
    + intros j Hj. rewrite Hkeep by lia.
      apply list_lookup_insert_ne. lia.
    + intros i' Hi'. destruct (Z.eq_dec i' i) as [->|Hne].
      * rewrite Hread, Hold. reflexivity.
      * rewrite Hupd by lia. f_equal.
        apply list_lookup_insert_ne.
        assert (Hrow' : (i' + 1) * w <= 2 ^ 64) by nia.
        destruct (cell_index_wf w k i' Hw ltac:(lia) Hrow') as [_ Hc'].
        assert ((i + 1) * w <= i' * w) by nia. lia.
Qed.

Lemma Query_loop_total w k m : 0 < w -> forall fuel i min,
  0 <= i ->
  (i + Z.of_nat fuel) * w <= Z.of_nat (length m) ->
  Z.of_nat (length m) < 2 ^ 64 ->
  exists v, Query_loop w k fuel i m min = Some v.
Proof.
  intros Hw. induction fuel as [|fuel IH]; intros i min Hi Hlen Hmax.
  - exists min. reflexivity.
  - assert (Hrow : (i + 1) * w <= 2 ^ 64) by nia.
    destruct (cell_index_wf w k i Hw Hi Hrow) as [Hc Hcr].
    assert (Hin : (Z.to_nat (row_cell w k i) < length m)%nat) by nia.
    destruct (lookup_lt_is_Some_2 m _ Hin) as [v Hv].
    simpl. rewrite Hc, Hv. apply IH; lia.
Qed.

Lemma fnvSketch_Query_total r key :
  sketch_wf r -> exists v, fnvSketch_Query r key = Some v.
Proof.
  intros (Hw & Hd & Hlen & Hmax). unfold fnvSketch_Query.
  apply Query_loop_total; [exact Hw|lia| |lia].
  rewrite Z2Nat.id by exact Hd. lia.
Qed.

Lemma fnvSketch_Count_wf r key delta :
  sketch_wf r ->
  exists r' v,
    fnvSketch_Count r key delta = (r', Some v) /\
    fnvSketch_Query r' key = Some v /\
    sketch_wf r' /\
    (forall i, 0 <= i < Depth r ->
       Matrix r' !! Z.to_nat (row_cell (Width r) (multihash key) i) =
       (fun old => u64 (old + u64 delta)) <$>
         Matrix r !! Z.to_nat (row_cell (Width r) (multihash key) i)).
Proof.
  intros (Hw & Hd & Hlen & Hmax).
  destruct (Count_loop_wf (Width r) (multihash key) (u64 delta) Hw
              (Z.to_nat (Depth r)) 0 (Matrix r) MaxUint64) as
    (m' & v & HC & HL & HQ & _ & Hupd); [lia|rewrite Z2Nat.id by exact Hd; lia|lia|].
  exists (mkSketch (Epsilon r) (Delta r) (Width r) (Depth r) m'), v.
  unfold fnvSketch_Count, fnvSketch_Query. rewrite HC. simpl.
  split; [reflexivity|]. split; [exact HQ|]. split.
  - unfold sketch_wf. simpl. rewrite HL. auto.
  - intros i Hi. apply Hupd. rewrite Z2Nat.id by exact Hd. lia.
Qed.


(** C7. On a sketch as the constructor builds it, [Count(k, d)] returns the
    value that [Query(k)] returns on the updated sketch: each of the depth
    cells (row i, column hash(kernel, i) mod width) has received the delta,
    and the result is the minimum of these updated cells. *)
Theorem Count_returns_Query_of_updated_sketch r key delta :
  sketch_wf r ->
  exists r' v vs,
    fnvSketch_Count r key delta = (r', Some v) /\
    fnvSketch_Query r' key = Some v /\
    row_cells (Width r) (multihash key) (Matrix r')
      (seqZ 0 (Z.of_nat (Z.to_nat (Depth r)))) = Some vs /\
    v = foldl min_step MaxUint64 vs /\
    (forall i, 0 <= i < Depth r ->
       Matrix r' !! Z.to_nat (row_cell (Width r) (multihash key) i) =
       (fun old => u64 (old + u64 delta)) <$>
         Matrix r !! Z.to_nat (row_cell (Width r) (multihash key) i)).
Proof.
  intros Hwf.
  destruct (fnvSketch_Count_wf r key delta Hwf) as (r' & v & HC & HQ & _ & Hupd).
  assert (Hshape : Width r' = Width r /\ Depth r' = Depth r).
  { unfold fnvSketch_Count in HC.
    destruct (Count_loop _ _ _ _ _ _ _) as [m res].
    inversion HC; subst. split; reflexivity. }
  destruct Hshape as [HW HD].
  pose proof HQ as HQ'. unfold fnvSketch_Query in HQ'.
  rewrite Query_loop_min, HW, HD in HQ'.
  destruct (row_cells _ _ _ _) as [vs|] eqn:Hvs; [|discriminate].
  simpl in HQ'. inversion HQ' as [Hv].
  exists r', (foldl min_step MaxUint64 vs), vs.
  rewrite Hv. repeat split; try assumption; congruence.
Qed.

Lemma Count_returns_Query_of_updated_sketch_witness :
  exists r' v vs,
    fnvSketch_Count (mkSketch 0 0 3 2 (replicate 6 0)) key_bytes 7 = (r', Some v) /\
    fnvSketch_Query r' key_bytes = Some v /\
    row_cells 3 (multihash key_bytes) (Matrix r') (seqZ 0 (Z.of_nat (Z.to_nat 2))) = Some vs /\
    v = foldl min_step MaxUint64 vs /\
    (forall i, 0 <= i < 2 ->
       Matrix r' !! Z.to_nat (row_cell 3 (multihash key_bytes) i) =
       (fun old => u64 (old + u64 7)) <$>
         replicate 6 0 !! Z.to_nat (row_cell 3 (multihash key_bytes) i)).
Proof.
  apply (Count_returns_Query_of_updated_sketch (mkSketch 0 0 3 2 (replicate 6 0)) key_bytes 7).
  unfold sketch_wf. simpl. lia.
Defined.

(** C10. [Count] takes a signed delta and converts it to [uint64] without a
    check: a negative delta d is added as 2^64 + d to every touched cell,
    modulo 2^64, and the call is not rejected. On an empty sketch of the
    default size, [Count(k, -1)] returns 2^64 - 1, and so does the [Query]
    that follows. *)
Theorem Count_wraps_negative_delta r key delta :
  MinInt64 <= delta < 0 ->
  u64 delta = 2 ^ 64 + delta /\
  fnvSketch_Count r key delta = fnvSketch_Count r key (2 ^ 64 + delta) /\
  (sketch_wf r ->
   exists r' v,
     fnvSketch_Count r key delta = (r', Some v) /\
     forall i, 0 <= i < Depth r ->
       Matrix r' !! Z.to_nat (row_cell (Width r) (multihash key) i) =
       (fun old => (old + (2 ^ 64 + delta)) mod 2 ^ 64) <$>
         Matrix r !! Z.to_nat (row_cell (Width r) (multihash key) i)) /\
  (let fresh := mkSketch DefaultEpsilon DefaultDelta 2719 5 (replicate (Z.to_nat 13595) 0) in
   exists r',
     fnvSketch_Count fresh key_bytes (-1) = (r', Some 18446744073709551615) /\
     fnvSketch_Query r' key_bytes = Some 18446744073709551615).
Proof.
  intros Hd.
  assert (Hu : u64 delta = 2 ^ 64 + delta).
  { unfold u64, MinInt64 in *.
    rewrite <- (Z.mod_small (2 ^ 64 + delta) (2 ^ 64)) by lia.
    rewrite <- (Z_mod_plus_full delta 1 (2 ^ 64)). f_equal. lia. }
  split; [exact Hu|]. split.
  { unfold fnvSketch_Count. rewrite Hu.
    rewrite (u64_small (2 ^ 64 + delta)) by (unfold MinInt64 in Hd; lia).
    reflexivity. }
  split.
  { intros Hwf.
    destruct (fnvSketch_Count_wf r key delta Hwf) as (r' & v & HC & _ & _ & Hupd).
    exists r', v. split; [exact HC|]. intros i Hi.
    rewrite (Hupd i Hi), Hu. reflexivity. }
  exists (fnvSketch_Count (mkSketch DefaultEpsilon DefaultDelta 2719 5 (replicate (Z.to_nat 13595) 0))
            key_bytes (-1)).1.
  split; vm_compute; reflexivity.
Qed.

Lemma Count_wraps_negative_delta_witness :
  u64 (-1) = 2 ^ 64 + -1 /\
  fnvSketch_Count (mkSketch 0 0 3 2 (replicate 6 0)) key_bytes (-1) =
  fnvSketch_Count (mkSketch 0 0 3 2 (replicate 6 0)) key_bytes (2 ^ 64 + -1).
Proof.
  pose proof (Count_wraps_negative_delta (mkSketch 0 0 3 2 (replicate 6 0)) key_bytes (-1))
    as H.
  destruct H as (H1 & H2 & _); [unfold MinInt64; lia|].
  split; [exact H1|exact H2].
Defined.

(** ** The write path of the rolling counter *)

Section WritePathProperties.

Variable L : float -> float.
Variable O : float -> Z.

Lemma sketchWithTime_Count_Time b key delta :
  Time (sketchWithTime_Count b key delta).1 = Time b.
Proof.
  unfold sketchWithTime_Count. destruct (CountSketch b) as [r|]; [|reflexivity].
  destruct (fnvSketch_Count r key delta). reflexivity.
Qed.

Lemma rotate_times rl now :
  Time <$> rotate L O rl now =
  match last (buckets rl) with
  | None => [now]
  | Some newest =>
      if Time_Sub now (Time newest) >=? Interval rl then
        if Z.of_nat (length (buckets rl)) >=? NumIntervals rl
        then drop 1 (Time <$> buckets rl) ++ [now]
        else (Time <$> buckets rl) ++ [now]
      else Time <$> buckets rl
  end.
Proof.
  unfold rotate. destruct (last (buckets rl)) as [newest|]; [|reflexivity].
  destruct (_ >=? Interval rl); [|reflexivity].
  destruct (_ >=? NumIntervals rl); rewrite fmap_app; [|reflexivity].
  rewrite fmap_drop. reflexivity.
Qed.

Lemma count_state rl key delta now interval :
  let rl' := (rollingCounter_count L O rl key delta now interval).1 in
  rlEpsilon rl' = rlEpsilon rl /\ rlDelta rl' = rlDelta rl /\
  Interval rl' = Interval rl /\ NumIntervals rl' = NumIntervals rl /\
  Time <$> buckets rl' = Time <$> rotate L O rl now.
Proof.
  unfold rollingCounter_count.
  destruct (last (rotate L O rl now)) as [newest|] eqn:Hlast; [|simpl; auto].
  pose proof (sketchWithTime_Count_Time newest key delta) as HT.
  destruct (sketchWithTime_Count newest key delta) as [newest' latest].
  simpl in HT.
  assert (HTs : Time <$> <[pred (length (rotate L O rl now)) := newest']> (rotate L O rl now)
                = Time <$> rotate L O rl now).
  { rewrite list_fmap_insert. apply list_insert_id.
    rewrite list_lookup_fmap, <- last_lookup, Hlast. simpl. congruence. }
  destruct latest; simpl; auto.
Qed.

Lemma Count_state rl key delta interval now :
  (rollingCounter_Count L O rl key delta interval now).1 =
  (rollingCounter_count L O rl key delta now interval).1.
Proof.
  unfold rollingCounter_Count.
  destruct (rollingCounter_count L O rl key delta now interval). reflexivity.
Qed.

Lemma rotate_cap rl now :
  1 <= NumIntervals rl ->
  Z.of_nat (length (buckets rl)) <= NumIntervals rl ->
  Z.of_nat (length (Time <$> rotate L O rl now)) <= NumIntervals rl.
Proof.
  intros Hnum Hcap. rewrite rotate_times.
  destruct (last (buckets rl)) as [newest|] eqn:Hlast; [|simpl; lia].
  destruct (_ >=? Interval rl); [|rewrite length_fmap; lia].
  destruct (Z.geb_spec (Z.of_nat (length (buckets rl))) (NumIntervals rl)).
  - rewrite length_app, length_drop, length_fmap. simpl.
    destruct (buckets rl); [discriminate|]. simpl in *. lia.
  - rewrite length_app, length_fmap. simpl. lia.
Qed.

Lemma run_calls_cap num calls : 1 <= num -> forall rl,
  NumIntervals rl = num ->
  Z.of_nat (length (buckets rl)) <= num ->
  Z.of_nat (length (buckets (run_calls L O rl calls))) <= num.
Proof.
  intros Hnum. induction calls as [|c calls IH]; intros rl HN Hcap; [exact Hcap|].
  unfold run_calls in *. simpl. apply IH.
  - destruct c as [key delta interval now|key interval now]; simpl; [|exact HN].
    rewrite Count_state.
    destruct (count_state rl key delta now interval) as (_ & _ & _ & H & _).
    congruence.
  - destruct c as [key delta interval now|key interval now]; simpl; [|exact Hcap].
    rewrite Count_state.
    destruct (count_state rl key delta now interval) as (_ & _ & _ & _ & H).
    rewrite <- (length_fmap Time), H, <- HN. apply rotate_cap; lia.
Qed.

End WritePathProperties.

(** C5. A rolling counter constructed with [numIntervals >= 1] never holds
    more than [numIntervals] buckets, whatever [Count] and [Query] calls
    follow: [Count] opens a bucket only when the list is empty or the newest
    bucket is at least [Interval] old, and when the list already has
    [numIntervals] entries it drops the oldest instead of growing; [Query]
    leaves the counter as it is. *)
Theorem bucket_cap L O epsilon delta interval num calls :
  1 <= num ->
  Z.of_nat (length (buckets (run_calls L O (RollingCounter epsilon delta interval num) calls)))
    <= num /\
  (forall rl key d iv now,
     Time <$> buckets (rollingCounter_Count L O rl key d iv now).1 =
     match last (buckets rl) with
     | None => [now]
     | Some newest =>
         if Time_Sub now (Time newest) >=? Interval rl then
           if Z.of_nat (length (buckets rl)) >=? NumIntervals rl
           then drop 1 (Time <$> buckets rl) ++ [now]
           else (Time <$> buckets rl) ++ [now]
         else Time <$> buckets rl
     end) /\
  (forall rl key iv now, run_call L O rl (CallQuery key iv now) = rl).
Proof.
  intros Hnum. split; [|split].
  - apply run_calls_cap; [exact Hnum|reflexivity|simpl; lia].
  - intros rl key d iv now. rewrite Count_state.
    destruct (count_state L O rl key d now iv) as (_ & _ & _ & _ & H).
    rewrite H. apply rotate_times.
  - reflexivity.
Qed.

Lemma bucket_cap_witness :
  Z.of_nat (length (buckets (run_calls refLog refOvf (RollingCounter 0 0 Minute 2)
     [CallCount key_bytes 1 0 0; CallQuery key_bytes Minute Second;
      CallCount key_bytes 1 0 Minute; CallCount key_bytes 1 0 (2 * Minute)]))) <= 2.
Proof.
  apply (bucket_cap refLog refOvf 0 0 Minute 2
           [CallCount key_bytes 1 0 0; CallQuery key_bytes Minute Second;
            CallCount key_bytes 1 0 Minute; CallCount key_bytes 1 0 (2 * Minute)]).
  lia.
Defined.

(** ** The constructors *)

Lemma rollup_levels_None epsilon delta ds :
  rollup_levels epsilon delta ds = None <->
  exists i, ds !! i = Some 0 /\ (S i < length ds)%nat.
Proof.
  induction ds as [|from ds IH]; simpl.
  - split; [discriminate|]. intros (i & _ & Hi). simpl in Hi. lia.
  - destruct ds as [|to tl].
    + split; [discriminate|]. intros (i & _ & Hi). simpl in Hi. lia.
    + destruct (Z.eqb_spec from 0) as [->|Hne].
      * split; [|reflexivity]. intros _. exists 0%nat. simpl. split; [reflexivity|lia].
      * rewrite fmap_None, IH. split.
        -- intros (i & Hi & Hlen). exists (S i). split; [exact Hi|simpl in *; lia].
        -- intros (i & Hi & Hlen). destruct i as [|i].
           ++ simpl in Hi. congruence.
           ++ exists i. split; [exact Hi|simpl in *; lia].
Qed.

Lemma rollup_levels_Some epsilon delta ds : forall ls,
  rollup_levels epsilon delta ds = Some ls ->
  length ls = pred (length ds) /\
  forall i from to, ds !! i = Some from -> ds !! S i = Some to ->
    ls !! i =
    Some (mkRolling epsilon delta from
            (if Z.rem to from >? 0 then s64 (s64 (Z.quot to from) + 1)
             else s64 (Z.quot to from)) []).
Proof.
  induction ds as [|from ds IH]; intros ls Hls; simpl in Hls.
  - inversion Hls. split; [reflexivity|]. intros i from to H. discriminate.
  - destruct ds as [|to tl].
    + inversion Hls. split; [reflexivity|]. intros [|i] from' to' _ H; discriminate.
    + destruct (from =? 0); [discriminate|].
      destruct (rollup_levels epsilon delta (to :: tl)) as [ls'|] eqn:Hrec; [|discriminate].
      simpl in Hls. inversion Hls; subst ls. clear Hls.
      destruct (IH ls' eq_refl) as [Hlen Hlook].
      split; [simpl in *; lia|].
      intros [|i] from' to' H1 H2.
      * simpl in H1, H2. inversion H1; inversion H2; subst. reflexivity.
      * simpl in H1. simpl. apply Hlook; [exact H1|exact H2].
Qed.

(** C9 (as the code has it). The constructors have no error result and
    validate nothing: [RollingCounter] returns a counter for every
    [numIntervals], zero and negative ones included; [RollupCounter] returns a
    counter with one level per pair of consecutive durations, ascending or
    not, and with no level for a single duration. Construction is only
    aborted, by a run-time panic, when the list of durations is empty or a
    duration that is divided by is zero. *)
Theorem constructors_validate_nothing :
  (forall epsilon delta interval num,
     RollingCounter epsilon delta interval num = mkRolling epsilon delta interval num []) /\
  (forall epsilon delta ds,
     RollupCounter epsilon delta ds = None <->
     ds = [] \/ exists i, ds !! i = Some 0 /\ (S i < length ds)%nat) /\
  (forall epsilon delta ds rc,
     RollupCounter epsilon delta ds = Some rc ->
     length (Levels rc) = pred (length ds) /\
     forall i from to, ds !! i = Some from -> ds !! S i = Some to ->
       Levels rc !! i =
       Some (mkRolling epsilon delta from
               (if Z.rem to from >? 0 then s64 (s64 (Z.quot to from) + 1)
                else s64 (Z.quot to from)) [])).
Proof.
  split; [reflexivity|]. split.
  - intros epsilon delta ds. unfold RollupCounter.
    destruct ds as [|from ds].
    + simpl. split; [auto|reflexivity].
    + destruct (Z.ltb_spec (Z.of_nat (length (from :: ds)) - 1) 0) as [Hlt|_].
      { simpl in Hlt. lia. }
      rewrite fmap_None, rollup_levels_None. split; [auto|].
      intros [Hnil|H]; [discriminate|exact H].
  - intros epsilon delta ds rc. unfold RollupCounter.
    destruct (_ <? 0); [discriminate|].
    destruct (rollup_levels epsilon delta ds) as [ls|] eqn:Hls; [|discriminate].
    simpl. intros Hrc. inversion Hrc; subst rc. simpl.
    apply (rollup_levels_Some epsilon delta ds ls Hls).
Qed.

Lemma constructors_validate_nothing_witness :
  length (Levels (mkRollup [mkRolling 0 0 Hour 1 []])) = pred (length [Hour; 10 * Minute]).
Proof.
  pose proof constructors_validate_nothing as (_ & _ & H).
  apply (H 0%float 0%float [Hour; 10 * Minute] (mkRollup [mkRolling 0 0 Hour 1 []])).
  reflexivity.
Defined.

(** C9 as stated fails: a rolling counter with zero intervals and rollup
    counters with descending, equal or single durations are constructed
    without any error, and the counter with zero intervals counts. *)
Lemma constructors_return_counters_on_bad_configuration :
  RollingCounter 0 0 Minute 0 = mkRolling 0 0 Minute 0 [] /\
  RollupCounter 0 0 [Hour; 10 * Minute] = Some (mkRollup [mkRolling 0 0 Hour 1 []]) /\
  RollupCounter 0 0 [Minute; Minute] = Some (mkRollup [mkRolling 0 0 Minute 1 []]) /\
  RollupCounter 0 0 [Minute] = Some (mkRollup []) /\
  (rollingCounter_Count refLog refOvf (RollingCounter 0 0 Minute 0)
     key_bytes 1 Minute 0).2 = Some 0%float /\
  (rollingCounter_Count refLog refOvf
     (rollingCounter_Count refLog refOvf (RollingCounter 0 0 Minute 0)
        key_bytes 1 Minute 0).1
     key_bytes 1 Minute (30 * Second)).2 = Some (2 / 30)%float.
Proof. repeat split; vm_compute; reflexivity. Qed.

(** ** The rate walk *)

Lemma Time_Sub_clamp t u : Time_Sub t u = Z.max MinInt64 (Z.min (t - u) MaxInt64).
Proof.
  unfold Time_Sub, MinInt64, MaxInt64.
  destruct (Z.gtb_spec (t - u) (2 ^ 63 - 1)); [lia|].
  destruct (Z.ltb_spec (t - u) (- 2 ^ 63)); lia.
Qed.

Lemma query_loop_stop rl key intervalStart latest fuel now interval tc td :
  interval <= 0 ->
  query_loop rl key intervalStart latest fuel now interval tc td = Some (tc, td).
Proof.
  intros H. destruct fuel as [|i]; [reflexivity|]. simpl.
  destruct (Z.gtb_spec interval 0); [lia|reflexivity].
Qed.

(** What a counted iteration adds, by the position of the bucket's start
    against the start of the queried window. *)
Lemma query_body_Counted rl key intervalStart latest i b now interval n d interval' :
  query_body rl key intervalStart latest i b now interval = Some (Counted n d interval') ->
  0 < Time_Sub now (Time b) /\
  interval' = s64 (interval - Time_Sub now (Time b)) /\
  ((intervalStart <= Time b /\ d = Time_Sub now (Time b)) \/
   (Time b < intervalStart /\ d = Time_Sub now intervalStart)).
Proof.
  unfold query_body.
  destruct (Z.leb_spec (Time_Sub now (Time b)) 0) as [|Hd]; [discriminate|].
  destruct (bucket_count rl key latest i b) as [n0|]; [|discriminate]. simpl.
  unfold Time_After. destruct (Z.ltb_spec (Time b) intervalStart) as [Hafter|Hnot].
  - destruct (_ >? Interval rl); [discriminate|].
    intros H. inversion H; subst. auto.
  - intros H. inversion H; subst. auto.
Qed.

(** The covered duration never exceeds what is left of the interval. *)
Lemma query_loop_bound rl key intervalStart latest : forall fuel now interval tc td tc' td',
  0 <= td ->
  interval = now - intervalStart ->
  td + interval <= MaxInt64 ->
  query_loop rl key intervalStart latest fuel now interval tc td = Some (tc', td') ->
  td <= td' <= td + Z.max interval 0.
Proof.
  induction fuel as [|i IH]; intros now interval tc td tc' td' Htd Hiv Hmax Hq.
  - simpl in Hq. inversion Hq. lia.
  - simpl in Hq. destruct (Z.gtb_spec interval 0) as [Hpos|]; [|inversion Hq; lia].
    destruct (buckets rl !! i) as [b|]; [|discriminate].
    destruct (query_body rl key intervalStart latest i b now interval)
      as [[| |n d interval']|] eqn:Hbody; [| | |discriminate].
    + apply IH in Hq; assumption.
    + inversion Hq. lia.
    + apply query_body_Counted in Hbody as (Hd & -> & Hcase).
      rewrite Time_Sub_clamp in Hd. unfold MinInt64, MaxInt64 in *.
      destruct Hcase as [[Hin ->]|[Hout ->]].
      * rewrite Time_Sub_clamp in Hq. unfold MinInt64, MaxInt64 in Hq.
        replace (Z.max (- 2 ^ 63) (Z.min (now - Time b) (2 ^ 63 - 1)))
          with (now - Time b) in Hq by lia.
        rewrite (s64_small (interval - (now - Time b))) in Hq
          by (unfold MinInt64, MaxInt64; lia).
        rewrite (s64_small (td + (now - Time b))) in Hq
          by (unfold MinInt64, MaxInt64; lia).
        apply IH in Hq; lia.
      * rewrite (Time_Sub_clamp now intervalStart) in Hq.
        rewrite (Time_Sub_clamp now (Time b)) in Hq.
        unfold MinInt64, MaxInt64 in Hq.
        replace (Z.max (- 2 ^ 63) (Z.min (now - intervalStart) (2 ^ 63 - 1)))
          with interval in Hq by lia.
        rewrite (s64_small (td + interval)) in Hq by (unfold MinInt64, MaxInt64; lia).
        rewrite s64_small in Hq by (unfold MinInt64, MaxInt64; lia).
        rewrite query_loop_stop in Hq by lia.
        inversion Hq. lia.
Qed.

(** The result of the walk: nothing, or at least a second and at most the
    interval asked for. *)
Lemma rollingCounter_query_bound rl key now interval latest tc td :
  interval <= MaxInt64 ->
  rollingCounter_query rl key now interval latest = Some (tc, td) ->
  (tc = 0%float /\ td = 0) \/ (Second <= td <= interval).
Proof.
  intros Hmax. unfold rollingCounter_query.
  destruct (query_loop _ _ _ _ _ _ _ _ _) as [[tc0 td0]|] eqn:Hloop; [|discriminate].
  simpl. destruct (Z.ltb_spec td0 Second) as [|Hsec].
  { intros Heq. inversion Heq. auto. }
  intros Heq. inversion Heq; subst. right. split; [exact Hsec|].
  destruct (Z.le_gt_cases interval 0) as [Hneg|Hpos].
  - rewrite query_loop_stop in Hloop by exact Hneg. inversion Hloop; subst.
    unfold Second in Hsec. lia.
  - apply query_loop_bound in Hloop.
    + lia.
    + lia.
    + unfold Time_Add. rewrite s64_small by (unfold MinInt64, MaxInt64 in *; lia). lia.
    + lia.
Qed.

Lemma rollingCounter_query_floor rl key now interval latest tc td :
  interval < Second ->
  rollingCounter_query rl key now interval latest = Some (tc, td) ->
  tc = 0%float /\ td = 0.
Proof.
  intros Hiv Hq. apply rollingCounter_query_bound in Hq.
  - destruct Hq as [H|H]; [exact H|lia].
  - unfold Second, MaxInt64 in *. lia.
Qed.

(** Well-formed buckets never panic. *)
Lemma sketchWithTime_Query_total b key :
  bucket_wf b -> exists v, sketchWithTime_Query b key = Some v.
Proof.
  intros Hwf. unfold sketchWithTime_Query.
  destruct (CountSketch b) as [r|] eqn:Hr; [|eauto].
  apply fnvSketch_Query_total, Hwf, Hr.
Qed.

Lemma query_body_total rl key intervalStart latest i b now interval :
  bucket_wf b -> exists it, query_body rl key intervalStart latest i b now interval = Some it.
Proof.
  intros Hwf. unfold query_body, bucket_count.
  destruct (_ <=? 0); [eauto|].
  destruct (sketchWithTime_Query_total b key Hwf) as [v ->].
  destruct (_ && _); simpl; destruct (Time_After _ _); eauto;
    destruct (_ >? Interval rl); eauto.
Qed.

Lemma query_loop_total rl key intervalStart latest :
  rolling_wf rl -> forall fuel now interval tc td,
  (fuel <= length (buckets rl))%nat ->
  exists r, query_loop rl key intervalStart latest fuel now interval tc td = Some r.
Proof.
  intros Hwf. induction fuel as [|i IH]; intros now interval tc td Hlen; [simpl; eauto|].
  simpl. destruct (interval >? 0); [|eauto].
  destruct (lookup_lt_is_Some_2 (buckets rl) i ltac:(lia)) as [b Hb]. rewrite Hb.
  assert (Hbwf : bucket_wf b).
  { unfold rolling_wf in Hwf. rewrite Forall_lookup in Hwf. eapply Hwf, Hb. }
  destruct (query_body_total rl key intervalStart latest i b now interval Hbwf)
    as [[| |n d interval'] ->]; [apply IH; lia|eauto|apply IH; lia].
Qed.

Lemma rollingCounter_query_total rl key now interval latest :
  rolling_wf rl -> exists r, rollingCounter_query rl key now interval latest = Some r.
Proof.
  intros Hwf. unfold rollingCounter_query.
  destruct (query_loop_total rl key (Time_Add now (s64 (- interval))) latest Hwf
              (length (buckets rl)) now interval 0%float 0 ltac:(lia)) as [[tc td] ->].
  simpl. destruct (td <? Second); eauto.
Qed.

Lemma rate_zero tc : rate tc 0 = 0%float.
Proof. reflexivity. Qed.

Lemma rollingCounter_Query_floor rl key interval now r :
  interval < Second ->
  rollingCounter_Query rl key interval now = Some r -> r = 0%float.
Proof.
  intros Hiv. unfold rollingCounter_Query.
  destruct (_ =? 0); [intros Heq; inversion Heq; reflexivity|].
  destruct (rollingCounter_query rl key now interval 0) as [[tc d]|] eqn:Hq; [|discriminate].
  apply rollingCounter_query_floor in Hq as [-> ->]; [|exact Hiv].
  simpl. intros Heq. inversion Heq. reflexivity.
Qed.

Lemma rollingCounter_Query_total rl key interval now :
  rolling_wf rl -> exists r, rollingCounter_Query rl key interval now = Some r.
Proof.
  intros Hwf. unfold rollingCounter_Query. destruct (_ =? 0); [eauto|].
  destruct (rollingCounter_query_total rl key now interval 0 Hwf) as [[tc d] ->].
  simpl. eauto.
Qed.

Lemma rollup_query_loop_floor key interval : interval < Second ->
  forall levels now r,
  rollup_query_loop levels key now interval 0%float 0 = Some r -> r = (0%float, 0).
Proof.
  intros Hiv. induction levels as [|c levels IH]; intros now r Hr; simpl in Hr.
  - inversion Hr. reflexivity.
  - destruct (Z.leb_spec interval 0) as [|Hpos]; [inversion Hr; reflexivity|].
    destruct (rollingCounter_query c key now interval 0) as [[n d]|] eqn:Hq; [|discriminate].
    apply rollingCounter_query_floor in Hq as [-> ->]; [|exact Hiv].
    simpl in Hr.
    change (0 + 0)%float with 0%float in Hr.
    change (s64 (0 + 0)) with 0 in Hr.
    rewrite Z.sub_0_r, (s64_small interval) in Hr
      by (unfold MinInt64, MaxInt64, Second in *; lia).
    eapply IH, Hr.
Qed.

Lemma rollup_query_loop_total key : forall levels now interval tc td,
  Forall rolling_wf levels ->
  exists r, rollup_query_loop levels key now interval tc td = Some r.
Proof.
  induction levels as [|c levels IH]; intros now interval tc td Hwf; simpl; [eauto|].
  destruct (interval <=? 0); [eauto|].
  inversion Hwf as [|? ? Hc Hrest]; subst.
  destruct (rollingCounter_query_total c key now interval 0 Hc) as [[n d] ->].
  simpl. apply IH, Hrest.
Qed.

(** C3. A rolling or rollup [Query] over an interval shorter than a second
    never returns anything but 0, and returns 0 on every counter whose
    sketches are as the constructor builds them. More generally the walk
    returns (0, 0) as soon as the duration it accumulated is below a second,
    and both [Query] and [Count] turn a duration of zero into the rate 0. *)
Theorem rate_floor :
  (forall rl key interval now r,
     interval < Second ->
     rollingCounter_Query rl key interval now = Some r -> r = 0%float) /\
  (forall rl key interval now,
     interval < Second -> rolling_wf rl ->
     rollingCounter_Query rl key interval now = Some 0%float) /\
  (forall rc key interval now r,
     interval < Second ->
     rollupCounter_Query rc key interval now = Some r -> r = 0%float) /\
  (forall rc key interval now,
     interval < Second -> Forall rolling_wf (Levels rc) ->
     rollupCounter_Query rc key interval now = Some 0%float) /\
  (forall rl key now interval latest tc td,
     query_loop rl key (Time_Add now (s64 (- interval))) latest
       (length (buckets rl)) now interval 0%float 0 = Some (tc, td) ->
     td < Second ->
     rollingCounter_query rl key now interval latest = Some (0%float, 0)) /\
  (forall rl key now interval tc,
     rollingCounter_query rl key now interval 0 = Some (tc, 0) ->
     rollingCounter_Query rl key interval now = Some 0%float) /\
  (forall L O rl key delta interval now rl' tc,
     rollingCounter_count L O rl key delta now interval = (rl', Some (tc, 0)) ->
     rollingCounter_Count L O rl key delta interval now = (rl', Some 0%float)) /\
  (forall rc key interval now tc,
     rollup_query_loop (Levels rc) key now interval 0%float 0 = Some (tc, 0) ->
     rollupCounter_Query rc key interval now = Some 0%float).
Proof.
  split; [exact rollingCounter_Query_floor|]. split.
  { intros rl key interval now Hiv Hwf.
    destruct (rollingCounter_Query_total rl key interval now Hwf) as [r Hr].
    rewrite Hr. f_equal. eapply rollingCounter_Query_floor; eassumption. }
  assert (Hrollup : forall rc key interval now r,
            interval < Second ->
            rollupCounter_Query rc key interval now = Some r -> r = 0%float).
  { intros rc key interval now r Hiv. unfold rollupCounter_Query.
    destruct (rollup_query_loop _ _ _ _ _ _) as [[tc td]|] eqn:Hloop; [|discriminate].
    apply rollup_query_loop_floor in Hloop; [|exact Hiv].
    inversion Hloop; subst. simpl. intros Heq. inversion Heq. reflexivity. }
  split; [exact Hrollup|]. split.
  { intros rc key interval now Hiv Hwf.
    assert (exists r, rollupCounter_Query rc key interval now = Some r) as [r Hr].
    { unfold rollupCounter_Query.
      destruct (rollup_query_loop_total key (Levels rc) now interval 0%float 0 Hwf)
        as [[tc td] ->]. simpl. eauto. }
    rewrite Hr. f_equal. eapply Hrollup; eassumption. }
  split.
  { intros rl key now interval latest tc td Hloop Htd.
    unfold rollingCounter_query. rewrite Hloop. simpl.
    destruct (Z.ltb_spec td Second); [reflexivity|lia]. }
  split.
  { intros rl key now interval tc Hq. unfold rollingCounter_Query.
    destruct (_ =? 0); [reflexivity|]. rewrite Hq. reflexivity. }
  split.
  { intros L O rl key delta interval now rl' tc Hc.
    unfold rollingCounter_Count. rewrite Hc. reflexivity. }
  intros rc key interval now tc Hloop.
  unfold rollupCounter_Query. rewrite Hloop. reflexivity.
Qed.

Lemma rate_floor_witness :
  rollingCounter_Query
    (mkRolling 0 0 Minute 3 [mkBucket (Some (mkSketch 0 0 3 2 [0; 9; 0; 9; 0; 0])) 0])
    key_bytes (Second - 1) (30 * Second) = Some 0%float.
Proof.
  pose proof rate_floor as (_ & H & _).
  apply H.
  - unfold Second. lia.
  - unfold rolling_wf. simpl. constructor; [|constructor].
    intros r Hr. inversion Hr; subst. unfold sketch_wf. simpl. lia.
Defined.

(** ** The rollup query *)

Lemma rollup_loop_walk key : forall levels now interval tc td tc' td',
  0 <= td -> td + Z.max interval 0 <= MaxInt64 ->
  rollup_query_loop levels key now interval tc td = Some (tc', td') ->
  rollup_walk key levels now interval tc td tc' td'.
Proof.
  induction levels as [|c levels IH]; intros now interval tc td tc' td' Htd Hmax Hq;
    simpl in Hq.
  - inversion Hq; subst. apply rollup_walk_no_level.
  - destruct (Z.leb_spec interval 0) as [Hneg|Hpos].
    { inversion Hq; subst. apply rollup_walk_used_up. exact Hneg. }
    destruct (rollingCounter_query c key now interval 0) as [[n d]|] eqn:Hn; [|discriminate].
    simpl in Hq.
    assert (Hd : 0 <= d <= interval).
    { apply rollingCounter_query_bound in Hn; [|lia].
      unfold Second in Hn. destruct Hn as [[_ ->]|]; lia. }
    unfold Time_Add in Hq.
    rewrite (s64_small (- d)), (s64_small (interval - d)), (s64_small (td + d)) in Hq
      by (unfold MinInt64, MaxInt64 in *; lia).
    eapply rollup_walk_level; [exact Hpos|exact Hn|].
    replace (now - d) with (now + - d) by lia.
    apply IH; [lia|lia|exact Hq].
Qed.

Lemma rollup_walk_loop key levels now interval tc td tc' td' :
  rollup_walk key levels now interval tc td tc' td' ->
  0 <= td -> td + Z.max interval 0 <= MaxInt64 ->
  rollup_query_loop levels key now interval tc td = Some (tc', td').
Proof.
  induction 1 as [levels now interval tc td Hneg|now interval tc td
                 |c levels now interval tc td n d tc' td' Hpos Hn Hwalk IH];
    intros Htd Hmax.
  - destruct levels as [|c levels]; [reflexivity|]. simpl.
    destruct (Z.leb_spec interval 0); [reflexivity|lia].
  - reflexivity.
  - simpl. destruct (Z.leb_spec interval 0); [lia|].
    rewrite Hn. simpl.
    assert (Hd : 0 <= d <= interval).
    { apply rollingCounter_query_bound in Hn; [|lia].
      unfold Second in Hn. destruct Hn as [[_ ->]|]; lia. }
    unfold Time_Add.
    rewrite (s64_small (- d)), (s64_small (interval - d)), (s64_small (td + d))
      by (unfold MinInt64, MaxInt64 in *; lia).
    replace (now + - d) with (now - d) by lia.
    apply IH; lia.
Qed.

(** C4. The rollup [Query] walks the levels from the finest to the coarsest:
    each level's rate walk, with no override, gives (n_i, d_i); n_i is added to
    the total count and d_i to the total duration, the cursor moves back by
    d_i and the remaining interval shrinks by d_i, until the interval is used
    up or no level is left. The result is (totalCount / totalDuration) times
    one second, or 0 when the total duration is 0. *)
Theorem rollup_query_is_level_walk rc key interval now r :
  interval <= MaxInt64 ->
  rollupCounter_Query rc key interval now = Some r <->
  exists tc td,
    rollup_walk key (Levels rc) now interval 0%float 0 tc td /\
    r = if td =? 0 then 0%float
        else (tc / float64_of_Z td * float64_of_Z Second)%float.
Proof.
  intros Hmax. unfold rollupCounter_Query. split.
  - destruct (rollup_query_loop _ _ _ _ _ _) as [[tc td]|] eqn:Hloop; [|discriminate].
    simpl. intros Heq. inversion Heq; subst. exists tc, td. split; [|reflexivity].
    apply rollup_loop_walk; [lia| |exact Hloop]. unfold MaxInt64 in *. lia.
  - intros (tc & td & Hwalk & ->).
    apply rollup_walk_loop in Hwalk; [|lia|unfold MaxInt64 in *; lia].
    rewrite Hwalk. reflexivity.
Qed.

Lemma rollup_query_is_level_walk_witness :
  rollupCounter_Query (mkRollup [RollingCounter 0 0 Minute 10; RollingCounter 0 0 Hour 6])
    key_bytes Minute 0 = Some 0%float <->
  exists tc td,
    rollup_walk key_bytes [RollingCounter 0 0 Minute 10; RollingCounter 0 0 Hour 6]
      0 Minute 0%float 0 tc td /\
    0%float = if td =? 0 then 0%float
              else (tc / float64_of_Z td * float64_of_Z Second)%float.
Proof.
  apply (rollup_query_is_level_walk
           (mkRollup [RollingCounter 0 0 Minute 10; RollingCounter 0 0 Hour 6])
           key_bytes Minute 0 0%float).
  unfold Minute, Second, MaxInt64. lia.
Defined.

(** ** Partial-bucket weighting *)

(** C1 (as the code has it). When the walk reaches a bucket that starts
    strictly before the window start [intervalStart], covers a positive span
    [d = now - b.bucketStart] up to the cursor [now], and the break condition
    [d - d2 > counter.interval] does not hold, with
    [d2 = min(now, b.bucketStart + counter.interval) - intervalStart], then the
    bucket's count n is replaced by [n * d2 / d] (evaluated in this order in
    float64) and the duration it contributes is [now - intervalStart], where
    [now] is the cursor of the walk at that bucket: the query instant for the
    first bucket counted, the start of the bucket counted before otherwise.
    These are added to the totals and the walk goes on from the bucket's
    start with the interval shortened by d. *)
Theorem partial_bucket_weighting rl key intervalStart latest i b now interval tc td n :
  buckets rl !! i = Some b ->
  0 < interval ->
  0 < Time_Sub now (Time b) ->
  Time b < intervalStart ->
  ~ s64 (Time_Sub now (Time b)
         - Time_Sub (Z.min now (Time b + Interval rl)) intervalStart) > Interval rl ->
  bucket_count rl key latest i b = Some n ->
  query_body rl key intervalStart latest i b now interval =
    Some (Counted
            (n * float64_of_Z (Time_Sub (Z.min now (Time b + Interval rl)) intervalStart)
               / float64_of_Z (Time_Sub now (Time b)))%float
            (Time_Sub now intervalStart)
            (s64 (interval - Time_Sub now (Time b)))) /\
  query_loop rl key intervalStart latest (S i) now interval tc td =
    query_loop rl key intervalStart latest i (Time b)
      (s64 (interval - Time_Sub now (Time b)))
      (tc + n * float64_of_Z (Time_Sub (Z.min now (Time b + Interval rl)) intervalStart)
              / float64_of_Z (Time_Sub now (Time b)))%float
      (s64 (td + Time_Sub now intervalStart)).
Proof.
  intros Hb Hiv Hd Hbefore Hbreak Hn.
  assert (Hbody :
    query_body rl key intervalStart latest i b now interval =
    Some (Counted
            (n * float64_of_Z (Time_Sub (Z.min now (Time b + Interval rl)) intervalStart)
               / float64_of_Z (Time_Sub now (Time b)))%float
            (Time_Sub now intervalStart)
            (s64 (interval - Time_Sub now (Time b))))).
  { unfold query_body. destruct (Z.leb_spec (Time_Sub now (Time b)) 0); [lia|].
    rewrite Hn. simpl. unfold Time_After, Time_Add.
    destruct (Z.ltb_spec (Time b) intervalStart); [|lia].
    assert (Hend : (if now <? Time b + Interval rl then now else Time b + Interval rl)
                   = Z.min now (Time b + Interval rl)).
    { destruct (Z.ltb_spec now (Time b + Interval rl)); lia. }
    rewrite Hend.
    destruct (Z.gtb_spec
                (s64 (Time_Sub now (Time b)
                      - Time_Sub (Z.min now (Time b + Interval rl)) intervalStart))
                (Interval rl)); [lia|reflexivity]. }
  split; [exact Hbody|].
  simpl. destruct (Z.gtb_spec interval 0); [|lia].
  rewrite Hb, Hbody. reflexivity.
Qed.

Lemma partial_bucket_weighting_witness :
  let rl := minute_writes refLog refOvf 0 10 in
  let b := default (mkBucket None 0) (buckets rl !! 3%nat) in
  query_body rl key_bytes (270 * Second) 0 3 b (5 * Minute) (30 * Second) =
    Some (Counted
            (float64_of_Z 4
               * float64_of_Z (Time_Sub (Z.min (5 * Minute) (Time b + Interval rl))
                                 (270 * Second))
               / float64_of_Z (Time_Sub (5 * Minute) (Time b)))%float
            (Time_Sub (5 * Minute) (270 * Second))
            (s64 (30 * Second - Time_Sub (5 * Minute) (Time b)))).
Proof.
  intros rl b.
  apply (partial_bucket_weighting rl key_bytes (270 * Second) 0 3 b
           (5 * Minute) (30 * Second) 0%float 0 (float64_of_Z 4)).
  - vm_compute. reflexivity.
  - vm_compute. reflexivity.
  - vm_compute. reflexivity.
  - vm_compute. reflexivity.
  - intros H. vm_compute in H. discriminate.
  - vm_compute. reflexivity.
Defined.

(** C1 as stated fails. In the walk of the test "Going back in time" (query
    instant at minute 6, window of 90 seconds, so window start at 4.5
    minutes), the bucket opened at minute 4 starts before the window start
    and is weighted: it contributes 30 seconds, the cursor (minute 5) minus
    the window start, and not the 90 seconds between the query instant and
    the window start; the walk returns 90 seconds in all, not 60 + 90. *)
Lemma partial_bucket_duration_is_from_cursor :
  let rl := minute_writes refLog refOvf 0 10 in
  let originalNow := 6 * Minute in
  let intervalStart := Time_Add originalNow (s64 (- (90 * Second))) in
  (Time <$> buckets rl !! 3%nat) = Some (4 * Minute) /\
  4 * Minute < intervalStart /\
  iteration_at rl key_bytes intervalStart 0 4 originalNow (90 * Second) =
    Some (Counted 5 (60 * Second) (30 * Second)) /\
  iteration_at rl key_bytes intervalStart 0 3 (5 * Minute) (30 * Second) =
    Some (Counted 2 (30 * Second) (- (30 * Second))) /\
  Time_Sub originalNow intervalStart = 90 * Second /\
  30 * Second <> Time_Sub originalNow intervalStart /\
  rollingCounter_query rl key_bytes originalNow (90 * Second) 0 =
    Some (7%float, 90 * Second).
Proof.
  cbv zeta. repeat split; try (vm_compute; reflexivity).
  vm_compute. discriminate.
Qed.

(** ** Moving a counter in time *)

Lemma Time_Sub_shift c t u : Time_Sub (t + c) (u + c) = Time_Sub t u.
Proof. unfold Time_Sub. replace (t + c - (u + c)) with (t - u) by lia. reflexivity. Qed.

Lemma Time_After_shift c t u : Time_After (t + c) (u + c) = Time_After t u.
Proof.
  unfold Time_After.
  destruct (Z.ltb_spec (u + c) (t + c)), (Z.ltb_spec u t); (reflexivity || lia).
Qed.

Lemma bucket_count_shift c rl key latest i b :
  bucket_count (shift_counter c rl) key latest i (shift_bucket c b) =
  bucket_count rl key latest i b.
Proof. unfold bucket_count. simpl. rewrite length_fmap. reflexivity. Qed.

Lemma query_body_shift c rl key intervalStart latest i b now interval :
  query_body (shift_counter c rl) key (intervalStart + c) latest i (shift_bucket c b)
    (now + c) interval =
  query_body rl key intervalStart latest i b now interval.
Proof.
  unfold query_body. rewrite bucket_count_shift. simpl.
  rewrite !Time_Sub_shift, Time_After_shift.
  unfold Time_Add.
  replace (Time b + c + Interval rl) with (Time b + Interval rl + c) by lia.
  rewrite Time_After_shift.
  destruct (Time_After (Time b + Interval rl) now); rewrite Time_Sub_shift; reflexivity.
Qed.

Lemma iteration_at_shift c rl key intervalStart latest i now interval :
  iteration_at (shift_counter c rl) key (intervalStart + c) latest i (now + c) interval =
  iteration_at rl key intervalStart latest i now interval.
Proof.
  unfold iteration_at. simpl. rewrite list_lookup_fmap.
  destruct (buckets rl !! i) as [b|]; simpl; [apply query_body_shift|reflexivity].
Qed.

Lemma query_loop_shift c rl key intervalStart latest : forall fuel now interval tc td,
  query_loop (shift_counter c rl) key (intervalStart + c) latest fuel (now + c) interval tc td =
  query_loop rl key intervalStart latest fuel now interval tc td.
Proof.
  induction fuel as [|i IH]; intros now interval tc td; [reflexivity|].
  simpl. destruct (interval >? 0); [|reflexivity].
  rewrite list_lookup_fmap.
  destruct (buckets rl !! i) as [b|]; simpl; [|reflexivity].
  rewrite query_body_shift.
  destruct (query_body rl key intervalStart latest i b now interval)
    as [[| |n d interval']|]; try reflexivity; apply IH.
Qed.

Lemma rollingCounter_query_shift c rl key now interval latest :
  rollingCounter_query (shift_counter c rl) key (now + c) interval latest =
  rollingCounter_query rl key now interval latest.
Proof.
  unfold rollingCounter_query, Time_Add.
  replace (now + c + s64 (- interval)) with (now + s64 (- interval) + c) by lia.
  simpl. rewrite length_fmap, query_loop_shift. reflexivity.
Qed.

Section WritePathShift.

Variable L L' : float -> float.
Variable O O' : float -> Z.

Lemma rotate_shift c rl now :
  rotate L O (shift_counter c rl) (now + c) = shift_bucket c <$> rotate L O rl now.
Proof.
  unfold rotate. simpl. rewrite fmap_last.
  destruct (last (buckets rl)) as [newest|]; simpl; [|reflexivity].
  rewrite Time_Sub_shift, length_fmap.
  destruct (_ >=? Interval rl); [|reflexivity].
  destruct (_ >=? NumIntervals rl); rewrite fmap_app; [|reflexivity].
  rewrite fmap_drop. reflexivity.
Qed.

Lemma sketchWithTime_Count_shift c b key delta :
  sketchWithTime_Count (shift_bucket c b) key delta =
  (shift_bucket c (sketchWithTime_Count b key delta).1,
   (sketchWithTime_Count b key delta).2).
Proof.
  unfold sketchWithTime_Count. simpl.
  destruct (CountSketch b) as [r|]; [|reflexivity].
  destruct (fnvSketch_Count r key delta). reflexivity.
Qed.

Lemma rollingCounter_count_shift c rl key delta now interval :
  rollingCounter_count L O (shift_counter c rl) key delta (now + c) interval =
  (shift_counter c (rollingCounter_count L O rl key delta now interval).1,
   (rollingCounter_count L O rl key delta now interval).2).
Proof.
  unfold rollingCounter_count. rewrite rotate_shift, fmap_last, length_fmap.
  destruct (last (rotate L O rl now)) as [newest|]; simpl; [|reflexivity].
  rewrite sketchWithTime_Count_shift.
  destruct (sketchWithTime_Count newest key delta) as [newest' latest]. simpl.
  rewrite <- list_fmap_insert.
  destruct latest as [latest|]; simpl; [|reflexivity].
  f_equal.
  apply (rollingCounter_query_shift c
           (mkRolling (rlEpsilon rl) (rlDelta rl) (Interval rl) (NumIntervals rl)
              (<[pred (length (rotate L O rl now)) := newest']> (rotate L O rl now)))).
Qed.

Lemma rollingCounter_Count_shift c rl key delta interval now :
  (rollingCounter_Count L O (shift_counter c rl) key delta interval (now + c)).1 =
  shift_counter c (rollingCounter_Count L O rl key delta interval now).1.
Proof.
  unfold rollingCounter_Count. rewrite rollingCounter_count_shift.
  destruct (rollingCounter_count L O rl key delta now interval). reflexivity.
Qed.

(** The write path depends on [math.Log] through the sketch it creates only. *)
Lemma rollingCounter_Count_NewSketch rl key delta interval now :
  NewSketch L O (getWithDefault (rlEpsilon rl) DefaultEpsilon)
    (getWithDefault (rlDelta rl) DefaultDelta) =
  NewSketch L' O' (getWithDefault (rlEpsilon rl) DefaultEpsilon)
    (getWithDefault (rlDelta rl) DefaultDelta) ->
  rollingCounter_Count L O rl key delta interval now =
  rollingCounter_Count L' O' rl key delta interval now.
Proof.
  intros H. unfold rollingCounter_Count, rollingCounter_count, rotate.
  rewrite H. reflexivity.
Qed.

End WritePathShift.

Lemma NewSketch_default L O :
  Depth (NewSketch L O DefaultEpsilon DefaultDelta) = 5 ->
  NewSketch L O DefaultEpsilon DefaultDelta =
  NewSketch refLog refOvf DefaultEpsilon DefaultDelta.
Proof.
  intros H. cbv beta iota zeta delta [NewSketch Depth] in H.
  cbv beta zeta delta [NewSketch]. rewrite H.
  vm_compute. reflexivity.
Qed.

Lemma minute_writes_S L O T n :
  minute_writes L O T (S n) =
  (rollingCounter_Count L O (minute_writes L O T n) key_bytes
     (1 + Z.of_nat n) 0 (T + (1 + Z.of_nat n) * Minute)).1.
Proof. unfold minute_writes. rewrite seqZ_S, foldl_snoc. reflexivity. Qed.

Lemma minute_writes_parameters L O T n :
  rlEpsilon (minute_writes L O T n) = 0%float /\
  rlDelta (minute_writes L O T n) = 0%float.
Proof.
  induction n as [|n IH]; [split; reflexivity|].
  rewrite minute_writes_S, Count_state.
  destruct (count_state L O (minute_writes L O T n) key_bytes (1 + Z.of_nat n)
              (T + (1 + Z.of_nat n) * Minute) 0) as (He & Hd & _).
  destruct IH. split; congruence.
Qed.

Lemma minute_writes_shift L O T n :
  Depth (NewSketch L O DefaultEpsilon DefaultDelta) = 5 ->
  minute_writes L O T n = shift_counter T (minute_writes refLog refOvf 0 n).
Proof.
  intros HD. induction n as [|n IH]; [reflexivity|].
  rewrite !minute_writes_S, IH.
  replace (T + (1 + Z.of_nat n) * Minute) with (0 + (1 + Z.of_nat n) * Minute + T) by lia.
  rewrite rollingCounter_Count_shift. f_equal. f_equal.
  apply rollingCounter_Count_NewSketch.
  destruct (minute_writes_parameters refLog refOvf 0 n) as [-> ->].
  apply (NewSketch_default L O HD).
Qed.

Lemma shift_counter_times c rl :
  Time <$> buckets (shift_counter c rl) = (fun t => t + c) <$> (Time <$> buckets rl).
Proof. simpl. rewrite <- !list_fmap_compose. reflexivity. Qed.

Lemma bucket_Query_shift c rl key i :
  (b ← buckets (shift_counter c rl) !! i; sketchWithTime_Query b key) =
  (b ← buckets rl !! i; sketchWithTime_Query b key).
Proof. simpl. rewrite list_lookup_fmap. destruct (buckets rl !! i); reflexivity. Qed.

(** C2. Ten writes of 1, 2, ..., 10 one minute apart, the i-th at T + i
    minutes, on a counter of one-minute buckets: the walk started 4 minutes
    before the newest bucket over 90 seconds returns exactly 7 counts over 90
    seconds. The buckets that start at or after the rewound cursor are
    skipped, the bucket holding 5 counts in full over its minute, and the
    bucket holding 4 counts for 4 * (30s / 60s) = 2 over the remaining 30
    seconds. The sketches are of the documented default size (five rows). *)
Theorem going_back_in_time L O T :
  Depth (NewSketch L O DefaultEpsilon DefaultDelta) = 5 ->
  let rl := minute_writes L O T 10 in
  let now := T + 10 * Minute - 4 * Minute in
  let intervalStart := Time_Add now (s64 (- (90 * Second))) in
  rollingCounter_query rl key_bytes now (90 * Second) 0 = Some (7%float, 90 * Second) /\
  Time <$> buckets rl = (fun i => T + i * Minute) <$> seqZ 1 10 /\
  (forall i, (5 <= i < 10)%nat ->
     iteration_at rl key_bytes intervalStart 0 i now (90 * Second) = Some Skipped) /\
  (b ← buckets rl !! 4%nat; sketchWithTime_Query b key_bytes) = Some 5 /\
  iteration_at rl key_bytes intervalStart 0 4 now (90 * Second) =
    Some (Counted 5 (60 * Second) (30 * Second)) /\
  (b ← buckets rl !! 3%nat; sketchWithTime_Query b key_bytes) = Some 4 /\
  iteration_at rl key_bytes intervalStart 0 3 (T + 5 * Minute) (30 * Second) =
    Some (Counted 2 (30 * Second) (- (30 * Second))).
Proof.
  intros HD. cbv zeta. rewrite (minute_writes_shift L O T 10 HD).
  assert (Hnow : T + 10 * Minute - 4 * Minute = 6 * Minute + T)
    by (unfold Minute, Second; lia).
  assert (Hcur : T + 5 * Minute = 5 * Minute + T) by lia.
  assert (Hstart : Time_Add (6 * Minute + T) (s64 (- (90 * Second))) = 270 * Second + T).
  { change (s64 (- (90 * Second))) with (- (90 * Second)).
    unfold Time_Add, Minute, Second. lia. }
  rewrite Hnow, Hcur, Hstart.
  split. { rewrite rollingCounter_query_shift. vm_compute. reflexivity. }
  split.
  { rewrite shift_counter_times.
    assert (Hk : Time <$> buckets (minute_writes refLog refOvf 0 10) =
                 (fun i => i * Minute) <$> seqZ 1 10) by (vm_compute; reflexivity).
    rewrite Hk, <- list_fmap_compose. apply list_fmap_ext.
    intros _ i _. simpl. lia. }
  split.
  { intros i Hi. rewrite iteration_at_shift.
    assert (Hcases : (i = 5 \/ i = 6 \/ i = 7 \/ i = 8 \/ i = 9)%nat) by lia.
    destruct Hcases as [->|[->|[->|[->| ->]]]]; vm_compute; reflexivity. }
  rewrite !bucket_Query_shift, !iteration_at_shift.
  repeat split; vm_compute; reflexivity.
Qed.

Lemma going_back_in_time_witness :
  rollingCounter_query (minute_writes refLog refOvf (1700000000 * Second) 10) key_bytes
    (1700000000 * Second + 10 * Minute - 4 * Minute) (90 * Second) 0 =
  Some (7%float, 90 * Second).
Proof.
  assert (HD : Depth (NewSketch refLog refOvf DefaultEpsilon DefaultDelta) = 5)
    by (vm_compute; reflexivity).
  pose proof (going_back_in_time refLog refOvf (1700000000 * Second) HD) as Hw.
  cbv zeta in Hw. exact (proj1 Hw).
Defined.

(** ** Serialization *)

Lemma list_codec_ok :
  gob_codec_ok (list gobValue) [] app list_Encode
    list_Decode_float list_Decode_int list_Decode_buckets.
Proof.
  split.
  - intros a b c. symmetry. apply app_assoc.
  - reflexivity.
  - apply app_nil_r.
  - intros x chunk rest H. inversion H. reflexivity.
  - intros n chunk rest H. inversion H. reflexivity.
  - intros bs chunk rest H. inversion H. reflexivity.
Qed.

Section GobProperties.

Variable Buffer : Type.
Variable buf_empty : Buffer.
Variable buf_append : Buffer -> Buffer -> Buffer.
Variable gob_Encode : gobValue -> option Buffer.
Variable gob_Decode_float : Buffer -> option (float * Buffer).
Variable gob_Decode_int : Buffer -> option (Z * Buffer).
Variable gob_Decode_buckets : Buffer -> option (list sketchWithTime * Buffer).

Hypothesis codec_ok :
  gob_codec_ok Buffer buf_empty buf_append gob_Encode
    gob_Decode_float gob_Decode_int gob_Decode_buckets.

Local Abbreviation GobEncode :=
  (rollingCounter_GobEncode Buffer buf_empty buf_append gob_Encode).
Local Abbreviation GobDecode :=
  (rollingCounter_GobDecode Buffer gob_Decode_float gob_Decode_int gob_Decode_buckets).

Lemma GobEncode_chunks rl data :
  GobEncode rl = inl data ->
  exists c1 c2 c3 c4 c5,
    gob_Encode (GobFloat (rlEpsilon rl)) = Some c1 /\
    gob_Encode (GobFloat (rlDelta rl)) = Some c2 /\
    gob_Encode (GobInt (Interval rl)) = Some c3 /\
    gob_Encode (GobInt (NumIntervals rl)) = Some c4 /\
    gob_Encode (GobBuckets (buckets rl)) = Some c5 /\
    data = buf_append c1 (buf_append c2 (buf_append c3 (buf_append c4
             (buf_append c5 buf_empty)))).
Proof.
  unfold rollingCounter_GobEncode. simpl.
  destruct (gob_Encode (GobFloat (rlEpsilon rl))) as [c1|]; [|discriminate].
  destruct (gob_Encode (GobFloat (rlDelta rl))) as [c2|]; [|discriminate].
  destruct (gob_Encode (GobInt (Interval rl))) as [c3|]; [|discriminate].
  destruct (gob_Encode (GobInt (NumIntervals rl))) as [c4|]; [|discriminate].
  destruct (gob_Encode (GobBuckets (buckets rl))) as [c5|]; [|discriminate].
  intros H. inversion H. exists c1, c2, c3, c4, c5.
  repeat split; try reflexivity.
  destruct codec_ok as [Hassoc Hl Hr _ _ _].
  rewrite Hl, Hr, !Hassoc. reflexivity.
Qed.

Lemma GobDecode_GobEncode rl dst data :
  GobEncode rl = inl data -> GobDecode dst data = (rl, None).
Proof.
  intros H. apply GobEncode_chunks in H as (c1 & c2 & c3 & c4 & c5 & H1 & H2 & H3 & H4 & H5 & ->).
  destruct codec_ok as [_ _ _ Hf Hi Hb].
  unfold rollingCounter_GobDecode.
  rewrite (Hf _ _ _ H1). simpl. rewrite (Hf _ _ _ H2). simpl.
  rewrite (Hi _ _ _ H3). simpl. rewrite (Hi _ _ _ H4). simpl.
  rewrite (Hb _ _ _ H5). simpl. destruct rl. reflexivity.
Qed.

End GobProperties.



(** * Further properties of the code *)

(** ** The sketch: which cells a [Count] writes *)

Lemma Count_loop_frame w k d : 0 < w -> forall fuel i m min,
  0 <= i ->
  (i + Z.of_nat fuel) * w <= Z.of_nat (length m) ->
  Z.of_nat (length m) < 2 ^ 64 ->
  forall j,
    (forall i', i <= i' < i + Z.of_nat fuel -> j <> Z.to_nat (row_cell w k i')) ->
    (Count_loop w k d fuel i m min).1 !! j = m !! j.
Proof.
  intros Hw. induction fuel as [|fuel IH]; intros i m min Hi Hlen Hmax j Hj; [reflexivity|].
  assert (Hrow : (i + 1) * w <= 2 ^ 64) by nia.
  destruct (cell_index_wf w k i Hw Hi Hrow) as [Hc Hcr].
  assert (Hin : (Z.to_nat (row_cell w k i) < length m)%nat) by nia.
  destruct (lookup_lt_is_Some_2 m _ Hin) as [old Hold].
  simpl. rewrite Hc, Hold.
  rewrite IH.
  - apply list_lookup_insert_ne. intros Heq. apply (Hj i); [lia|congruence].
  - lia.
  - rewrite length_insert. lia.
  - rewrite length_insert. lia.
  - intros i' Hi'. apply Hj. lia.
Qed.

Lemma elem_of_key_cells w k depth j :
  j ∈ key_cells w k depth <-> exists i, 0 <= i < depth /\ j = Z.to_nat (row_cell w k i).
Proof.
  unfold key_cells. rewrite list_elem_of_fmap. split.
  - intros (i & -> & Hi). apply elem_of_seqZ in Hi. exists i. split; [lia|reflexivity].
  - intros (i & Hi & ->). exists i. split; [reflexivity|]. apply elem_of_seqZ. lia.
Qed.

Lemma fnvSketch_Count_shape r key delta :
  (fnvSketch_Count r key delta).1 =
  mkSketch (Epsilon r) (Delta r) (Width r) (Depth r)
    (Matrix (fnvSketch_Count r key delta).1).
Proof.
  unfold fnvSketch_Count. destruct (Count_loop _ _ _ _ _ _ _). reflexivity.
Qed.

(** The matrix after a [Count], cell by cell. *)
Lemma fnvSketch_Count_matrix r key delta j :
  sketch_wf r ->
  Matrix (fnvSketch_Count r key delta).1 !! j =
  if decide (j ∈ key_cells (Width r) (multihash key) (Depth r))
  then (fun old => u64 (old + u64 delta)) <$> Matrix r !! j
  else Matrix r !! j.
Proof.
  intros Hwf. destruct (decide _) as [Hin|Hout].
  - apply elem_of_key_cells in Hin as (i & Hi & ->).
    destruct (fnvSketch_Count_wf r key delta Hwf) as (r' & v & HC & _ & _ & Hupd).
    rewrite HC. simpl. apply Hupd, Hi.
  - destruct Hwf as (Hw & Hd & Hlen & Hmax).
    unfold fnvSketch_Count.
    pose proof (Count_loop_frame (Width r) (multihash key) (u64 delta) Hw
                  (Z.to_nat (Depth r)) 0 (Matrix r) MaxUint64 ltac:(lia)) as Hframe.
    destruct (Count_loop _ _ _ _ _ _ _) as [m res] eqn:Hloop. simpl in *.
    apply Hframe; [rewrite Z2Nat.id by exact Hd; lia|lia|].
    intros i' Hi' ->. apply Hout, elem_of_key_cells.
    exists i'. split; [rewrite Z2Nat.id in Hi' by exact Hd; lia|reflexivity].
Qed.

Lemma fnvSketch_Count_keeps_wf r key delta :
  sketch_wf r -> sketch_wf (fnvSketch_Count r key delta).1.
Proof.
  intros Hwf.
  destruct (fnvSketch_Count_wf r key delta Hwf) as (r' & v & HC & _ & Hwf' & _).
  rewrite HC. exact Hwf'.
Qed.

Lemma fnvSketch_Count_length r key delta :
  sketch_wf r ->
  length (Matrix (fnvSketch_Count r key delta).1) = length (Matrix r).
Proof.
  intros (Hw & Hd & Hlen & Hmax).
  destruct (Count_loop_wf (Width r) (multihash key) (u64 delta) Hw
              (Z.to_nat (Depth r)) 0 (Matrix r) MaxUint64) as
    (m' & v & HC & HL & _); [lia|rewrite Z2Nat.id by exact Hd; lia|lia|].
  unfold fnvSketch_Count. rewrite HC. exact HL.
Qed.

Lemma row_cell_bounds r key i :
  sketch_wf r -> 0 <= i < Depth r ->
  i * Width r <= row_cell (Width r) (multihash key) i < (i + 1) * Width r /\
  row_cell (Width r) (multihash key) i < Z.of_nat (length (Matrix r)).
Proof.
  intros (Hw & Hd & Hlen & Hmax) Hi.
  assert (Hrow : (i + 1) * Width r <= 2 ^ 64) by nia.
  destruct (cell_index_wf (Width r) (multihash key) i Hw ltac:(lia) Hrow) as [_ Hc].
  split; [exact Hc|nia].
Qed.

(** X1. On a sketch as the constructor builds it, [Count] keeps epsilon,
    delta, width, depth and the size of the matrix, and writes to no cell but
    the key's own: one cell in each row, inside the matrix, the cells of
    different rows being different. *)
Theorem Count_writes_only_the_cells_of_its_key r key delta :
  sketch_wf r ->
  Epsilon (fnvSketch_Count r key delta).1 = Epsilon r /\
  Delta (fnvSketch_Count r key delta).1 = Delta r /\
  Width (fnvSketch_Count r key delta).1 = Width r /\
  Depth (fnvSketch_Count r key delta).1 = Depth r /\
  length (Matrix (fnvSketch_Count r key delta).1) = length (Matrix r) /\
  (forall i, 0 <= i < Depth r ->
     row_cell (Width r) (multihash key) i < Z.of_nat (length (Matrix r))) /\
  (forall i i', 0 <= i < Depth r -> 0 <= i' < Depth r ->
     row_cell (Width r) (multihash key) i = row_cell (Width r) (multihash key) i' ->
     i = i') /\
  (forall j, j ∉ key_cells (Width r) (multihash key) (Depth r) ->
     Matrix (fnvSketch_Count r key delta).1 !! j = Matrix r !! j).
Proof.
  intros Hwf. rewrite (fnvSketch_Count_shape r key delta) at 1 2 3 4. simpl.
  split; [reflexivity|]. split; [reflexivity|]. split; [reflexivity|].
  split; [reflexivity|]. split; [apply fnvSketch_Count_length, Hwf|].
  split; [intros i Hi; apply (row_cell_bounds r key i Hwf Hi)|]. split.
  - intros i i' Hi Hi' Heq.
    destruct (row_cell_bounds r key i Hwf Hi) as [Hb _].
    destruct (row_cell_bounds r key i' Hwf Hi') as [Hb' _].
    rewrite Heq in Hb. destruct Hwf as (Hw & _). nia.
  - intros j Hj. rewrite fnvSketch_Count_matrix by exact Hwf.
    destruct (decide _); [contradiction|reflexivity].
Qed.

Lemma Count_writes_only_the_cells_of_its_key_witness :
  Matrix (fnvSketch_Count (mkSketch 0 0 3 2 [1; 2; 3; 4; 5; 6]) key_bytes 7).1 !! 0%nat =
  [1; 2; 3; 4; 5; 6] !! 0%nat.
Proof.
  pose proof (Count_writes_only_the_cells_of_its_key
                (mkSketch 0 0 3 2 [1; 2; 3; 4; 5; 6]) key_bytes 7) as H.
  destruct H as (_ & _ & _ & _ & _ & _ & _ & H); [unfold sketch_wf; simpl; lia|].
  apply H. vm_compute. intros Hin.
  repeat (apply elem_of_cons in Hin as [Hin|Hin]; [discriminate|]).
  inversion Hin.
Defined.

(** ** The sketch: how [Count] calls compose *)

Lemma fnvSketch_eq r r' :
  Epsilon r = Epsilon r' -> Delta r = Delta r' -> Width r = Width r' ->
  Depth r = Depth r' -> (forall j, Matrix r !! j = Matrix r' !! j) -> r = r'.
Proof.
  destruct r, r'. simpl. intros -> -> -> -> H. f_equal. apply list_eq, H.
Qed.

Lemma fnvSketch_Count_fields r key delta :
  Epsilon (fnvSketch_Count r key delta).1 = Epsilon r /\
  Delta (fnvSketch_Count r key delta).1 = Delta r /\
  Width (fnvSketch_Count r key delta).1 = Width r /\
  Depth (fnvSketch_Count r key delta).1 = Depth r.
Proof. rewrite (fnvSketch_Count_shape r key delta). simpl. auto. Qed.

Lemma u64_add_r a b : u64 (a + u64 b) = u64 (a + b).
Proof. unfold u64. apply Z.add_mod_idemp_r. lia. Qed.

Lemma u64_add_twice old a b : u64 (u64 (old + u64 a) + u64 b) = u64 (old + a + b).
Proof.
  rewrite u64_add_r. unfold u64.
  rewrite Z.add_mod_idemp_l by lia.
  replace (old + a mod 2 ^ 64 + b) with (old + b + a mod 2 ^ 64) by lia.
  rewrite Z.add_mod_idemp_r by lia. f_equal. lia.
Qed.

(** X2. On a sketch as the constructor builds it, two [Count] calls for the
    same key leave the sketch that one call with the sum of the deltas
    leaves, and [Count] calls for two keys leave the same sketch in either
    order. *)
Theorem Count_calls_add_up_and_commute r :
  sketch_wf r ->
  (forall key d1 d2,
     (fnvSketch_Count (fnvSketch_Count r key d1).1 key d2).1 =
     (fnvSketch_Count r key (d1 + d2)).1) /\
  (forall key1 d1 key2 d2,
     (fnvSketch_Count (fnvSketch_Count r key1 d1).1 key2 d2).1 =
     (fnvSketch_Count (fnvSketch_Count r key2 d2).1 key1 d1).1).
Proof.
  intros Hwf. split.
  - intros key d1 d2.
    pose proof (fnvSketch_Count_keeps_wf r key d1 Hwf) as Hwf1.
    destruct (fnvSketch_Count_fields r key d1) as (He1 & Hd1 & HW1 & HD1).
    destruct (fnvSketch_Count_fields (fnvSketch_Count r key d1).1 key d2)
      as (He2 & Hd2 & HW2 & HD2).
    destruct (fnvSketch_Count_fields r key (d1 + d2)) as (He3 & Hd3 & HW3 & HD3).
    apply fnvSketch_eq; try congruence.
    intros j. rewrite !fnvSketch_Count_matrix by assumption. rewrite HW1, HD1.
    destruct (decide _); [|reflexivity].
    destruct (Matrix r !! j) as [old|]; [|reflexivity]. simpl. f_equal.
    rewrite u64_add_twice, u64_add_r. f_equal. lia.
  - intros key1 d1 key2 d2.
    pose proof (fnvSketch_Count_keeps_wf r key1 d1 Hwf) as Hwf1.
    pose proof (fnvSketch_Count_keeps_wf r key2 d2 Hwf) as Hwf2.
    destruct (fnvSketch_Count_fields r key1 d1) as (He1 & Hd1 & HW1 & HD1).
    destruct (fnvSketch_Count_fields r key2 d2) as (He2 & Hd2 & HW2 & HD2).
    destruct (fnvSketch_Count_fields (fnvSketch_Count r key1 d1).1 key2 d2)
      as (He3 & Hd3 & HW3 & HD3).
    destruct (fnvSketch_Count_fields (fnvSketch_Count r key2 d2).1 key1 d1)
      as (He4 & Hd4 & HW4 & HD4).
    apply fnvSketch_eq; try congruence.
    intros j. rewrite !fnvSketch_Count_matrix by assumption.
    rewrite HW1, HD1, HW2, HD2.
    destruct (decide (j ∈ key_cells (Width r) (multihash key2) (Depth r)));
      destruct (decide (j ∈ key_cells (Width r) (multihash key1) (Depth r)));
      try reflexivity.
    destruct (Matrix r !! j) as [old|]; [|reflexivity]. simpl. f_equal.
    rewrite !u64_add_twice. f_equal. lia.
Qed.

Lemma Count_calls_add_up_and_commute_witness :
  (fnvSketch_Count (fnvSketch_Count (mkSketch 0 0 3 2 [1; 2; 3; 4; 5; 6])
                      key_bytes 7).1 (list_byte_of_string "abc") 2).1 =
  (fnvSketch_Count (fnvSketch_Count (mkSketch 0 0 3 2 [1; 2; 3; 4; 5; 6])
                      (list_byte_of_string "abc") 2).1 key_bytes 7).1.
Proof.
  pose proof (Count_calls_add_up_and_commute (mkSketch 0 0 3 2 [1; 2; 3; 4; 5; 6])) as H.
  destruct H as [_ H]; [unfold sketch_wf; simpl; lia|].
  apply H.
Defined.

(** ** The sketch never underestimates *)


(** ** The sketch never underestimates *)

Lemma counts_bounded_weaken r cnt cnt' N N' :
  counts_bounded r cnt N -> (forall k, cnt' k <= cnt k) -> N <= N' ->
  counts_bounded r cnt' N'.
Proof.
  intros [Hcells Hkeys] Hcnt HN. split.
  - intros j v Hv. specialize (Hcells j v Hv). lia.
  - intros k i Hi. destruct (Hkeys k i Hi) as (v & Hv & Hle).
    exists v. split; [exact Hv|]. specialize (Hcnt k). lia.
Qed.

Lemma counts_bounded_Count r cnt N key d :
  sketch_wf r -> counts_bounded r cnt N ->
  0 <= d -> N + d < 2 ^ 64 ->
  counts_bounded (fnvSketch_Count r key d).1
    (fun k => cnt k + if decide (k = key) then d else 0) (N + d).
Proof.
  intros Hwf [Hcells Hkeys] Hd HN.
  destruct (fnvSketch_Count_fields r key d) as (_ & _ & HW & HD).
  assert (Hnew : forall old, 0 <= old <= N -> u64 (old + u64 d) = old + d).
  { intros old Hold. rewrite u64_add_r. apply u64_small. lia. }
  split.
  - intros j v. rewrite fnvSketch_Count_matrix by exact Hwf.
    destruct (decide _).
    + destruct (Matrix r !! j) as [old|] eqn:Hold; [|discriminate].
      simpl. intros Hv. inversion Hv; subst.
      specialize (Hcells j old Hold). rewrite Hnew by exact Hcells. lia.
    + intros Hv. specialize (Hcells j v Hv). lia.
  - intros k i. rewrite HW, HD. intros Hi.
    destruct (Hkeys k i Hi) as (v & Hv & Hle).
    rewrite fnvSketch_Count_matrix by exact Hwf.
    destruct (decide (Z.to_nat (row_cell (Width r) (multihash k) i)
                        ∈ key_cells (Width r) (multihash key) (Depth r))) as [Hin|Hout].
    + rewrite Hv. simpl. rewrite Hnew by (apply (Hcells _ _ Hv)).
      exists (v + d). split; [reflexivity|]. destruct (decide (k = key)); lia.
    + exists v. split; [exact Hv|]. destruct (decide (k = key)) as [->|]; [|lia].
      exfalso. apply Hout, elem_of_key_cells. exists i. split; [exact Hi|reflexivity].
Qed.

Lemma total_mass_nonneg ops : Forall (fun op => 0 <= op.2) ops -> 0 <= total_mass ops.
Proof. induction 1; simpl; lia. Qed.

Lemma true_count_le_mass key ops :
  Forall (fun op => 0 <= op.2) ops -> 0 <= true_count key ops <= total_mass ops.
Proof.
  induction 1 as [|op ops Hop _ IH]; simpl; [lia|].
  destruct (decide (key = op.1)); lia.
Qed.

Lemma counts_bounded_apply ops : forall r cnt N,
  sketch_wf r -> counts_bounded r cnt N ->
  Forall (fun op => 0 <= op.2) ops ->
  N + total_mass ops < 2 ^ 64 ->
  sketch_wf (apply_counts r ops) /\
  Width (apply_counts r ops) = Width r /\
  Depth (apply_counts r ops) = Depth r /\
  counts_bounded (apply_counts r ops) (fun k => cnt k + true_count k ops)
    (N + total_mass ops).
Proof.
  induction ops as [|op ops IH]; intros r cnt N Hwf Hb Hops HN; simpl in *.
  - split; [exact Hwf|]. split; [reflexivity|]. split; [reflexivity|].
    eapply counts_bounded_weaken; [exact Hb|intros; lia|lia].
  - inversion Hops as [|? ? Hop Hrest]; subst.
    pose proof (total_mass_nonneg ops Hrest) as Hmass.
    destruct (fnvSketch_Count_fields r op.1 op.2) as (_ & _ & HW & HD).
    destruct (IH (fnvSketch_Count r op.1 op.2).1
                (fun k => cnt k + if decide (k = op.1) then op.2 else 0) (N + op.2))
      as (Hwf' & HW' & HD' & Hb').
    + apply fnvSketch_Count_keeps_wf, Hwf.
    + apply counts_bounded_Count; [exact Hwf|exact Hb|exact Hop|lia].
    + exact Hrest.
    + lia.
    + unfold apply_counts in *. simpl.
      split; [exact Hwf'|]. split; [congruence|]. split; [congruence|].
      eapply counts_bounded_weaken; [exact Hb'|intros; simpl; lia|lia].
Qed.

Lemma Query_loop_between w k m lo hi : 0 < w -> forall fuel i min,
  0 <= i ->
  (i + Z.of_nat fuel) * w <= 2 ^ 64 ->
  (forall i', i <= i' < i + Z.of_nat fuel ->
     exists v, m !! Z.to_nat (row_cell w k i') = Some v /\ lo <= v <= hi) ->
  lo <= min ->
  exists v, Query_loop w k fuel i m min = Some v /\
            lo <= v <= min /\ ((0 < fuel)%nat -> v <= hi).
Proof.
  intros Hw. induction fuel as [|fuel IH]; intros i min Hi Hmax Hcells Hmin.
  - exists min. simpl. split; [reflexivity|]. split; lia.
  - assert (Hrow : (i + 1) * w <= 2 ^ 64) by nia.
    destruct (cell_index_wf w k i Hw Hi Hrow) as [Hc _].
    destruct (Hcells i ltac:(lia)) as (v0 & Hv0 & Hb0).
    simpl. rewrite Hc, Hv0.
    destruct (IH (i + 1) (if v0 <? min then v0 else min)) as (v & Hv & Hb & _).
    + lia.
    + lia.
    + intros i' Hi'. apply Hcells. lia.
    + destruct (Z.ltb_spec v0 min); lia.
    + exists v. split; [exact Hv|].
      destruct (Z.ltb_spec v0 min); split; lia.
Qed.

(** X3. The count-min guarantee without its probabilistic half: on a sketch
    that starts empty, after any stream of [Count] calls with non-negative
    deltas whose total stays below 2^64, [Query] of a key returns at least the
    number of occurrences counted for that key, and (when the sketch has a
    row) at most the total counted for all keys. *)
Theorem Query_is_at_least_the_true_count r ops key :
  sketch_wf r ->
  (forall j v, Matrix r !! j = Some v -> v = 0) ->
  Forall (fun op => 0 <= op.2) ops ->
  total_mass ops < 2 ^ 64 ->
  exists v,
    fnvSketch_Query (apply_counts r ops) key = Some v /\
    true_count key ops <= v /\
    (1 <= Depth r -> v <= total_mass ops).
Proof.
  intros Hwf Hzero Hops Hmass.
  assert (Hb0 : counts_bounded r (fun _ => 0) 0).
  { split.
    - intros j v Hv. rewrite (Hzero j v Hv). lia.
    - intros k i Hi. destruct (row_cell_bounds r k i Hwf Hi) as [Hlo Hlt].
      assert (Hin : (Z.to_nat (row_cell (Width r) (multihash k) i)
                     < length (Matrix r))%nat)
        by (destruct Hwf as (Hw & _); nia).
      destruct (lookup_lt_is_Some_2 (Matrix r) _ Hin) as [v Hv].
      exists v. split; [exact Hv|]. rewrite (Hzero _ v Hv). lia. }
  destruct (counts_bounded_apply ops r (fun _ => 0) 0 Hwf Hb0 Hops ltac:(lia))
    as (Hwf' & HW & HD & [Hcells Hkeys]).
  pose proof (true_count_le_mass key ops Hops) as Htc.
  destruct Hwf' as (Hw' & Hd' & Hlen' & Hmax').
  destruct (Query_loop_between (Width (apply_counts r ops)) (multihash key)
              (Matrix (apply_counts r ops)) (true_count key ops) (total_mass ops) Hw'
              (Z.to_nat (Depth (apply_counts r ops))) 0 MaxUint64) as (v & Hv & Hb & Hhi).
  - lia.
  - rewrite Z2Nat.id by exact Hd'. lia.
  - intros i' Hi'. rewrite Z2Nat.id in Hi' by exact Hd'.
    destruct (Hkeys key i' ltac:(lia)) as (v & Hv & Hle).
    exists v. split; [exact Hv|]. specialize (Hcells _ _ Hv). simpl in *. lia.
  - unfold MaxUint64. lia.
  - exists v. split; [exact Hv|]. split; [lia|].
    intros Hdepth. apply Hhi. rewrite HD. lia.
Qed.

Lemma Query_is_at_least_the_true_count_witness :
  exists v,
    fnvSketch_Query
      (apply_counts (mkSketch 0 0 3 2 (replicate 6 0))
         [(key_bytes, 2); (list_byte_of_string "abc", 3); (key_bytes, 5)])
      key_bytes = Some v /\
    true_count key_bytes
      [(key_bytes, 2); (list_byte_of_string "abc", 3); (key_bytes, 5)] <= v /\
    (1 <= 2 ->
     v <= total_mass [(key_bytes, 2); (list_byte_of_string "abc", 3); (key_bytes, 5)]).
Proof.
  apply (Query_is_at_least_the_true_count (mkSketch 0 0 3 2 (replicate 6 0))
           [(key_bytes, 2); (list_byte_of_string "abc", 3); (key_bytes, 5)] key_bytes).
  - unfold sketch_wf. simpl. lia.
  - intros j v Hv. cbn [Matrix] in Hv. apply lookup_replicate in Hv as [-> _]. reflexivity.
  - repeat constructor; simpl; lia.
  - simpl. lia.
Defined.

(** X4. Degenerate shapes. A sketch with no row answers 2^64 - 1 to every
    [Count] and [Query] and is never written to; a sketch with rows but zero
    width panics in both, before anything is written. *)
Theorem sketch_without_rows_or_columns r key delta :
  (Depth r <= 0 ->
   fnvSketch_Count r key delta = (r, Some MaxUint64) /\
   fnvSketch_Query r key = Some MaxUint64) /\
  (0 < Depth r -> Width r = 0 ->
   fnvSketch_Count r key delta = (r, None) /\ fnvSketch_Query r key = None).
Proof.
  split.
  - intros Hd. unfold fnvSketch_Count, fnvSketch_Query.
    replace (Z.to_nat (Depth r)) with 0%nat by lia. simpl.
    destruct r. split; reflexivity.
  - intros Hd Hw. unfold fnvSketch_Count, fnvSketch_Query.
    destruct (Z.to_nat (Depth r)) as [|n] eqn:Hn; [lia|].
    simpl. unfold cell_index. rewrite Hw. simpl.
    destruct r. simpl in *. subst. split; reflexivity.
Qed.

Lemma sketch_without_rows_or_columns_witness :
  fnvSketch_Count (mkSketch 0 0 3 0 []) key_bytes 1 =
    (mkSketch 0 0 3 0 [], Some MaxUint64) /\
  fnvSketch_Query (mkSketch 0 0 3 0 []) key_bytes = Some MaxUint64.
Proof.
  pose proof (sketch_without_rows_or_columns (mkSketch 0 0 3 0 []) key_bytes 1) as [H _].
  apply H. simpl. lia.
Defined.

(** ** The rolling counter never panics *)

Section NoPanic.

Variable L : float -> float.
Variable O : float -> Z.

Lemma sketchWithTime_Count_wf b key delta :
  bucket_wf b ->
  exists b' v,
    sketchWithTime_Count b key delta = (b', Some v) /\
    bucket_wf b' /\ Time b' = Time b /\
    sketchWithTime_Query b' key = Some v.
Proof.
  intros Hwf. unfold sketchWithTime_Count, sketchWithTime_Query.
  destruct (CountSketch b) as [r|] eqn:Hr.
  - destruct (fnvSketch_Count_wf r key delta (Hwf r Hr)) as (r' & v & HC & HQ & Hwf' & _).
    rewrite HC. exists (mkBucket (Some r') (Time b)), v. simpl.
    split; [reflexivity|]. split; [|split; [reflexivity|exact HQ]].
    intros r1 Hr1. simpl in Hr1. congruence.
  - exists b, 0. rewrite Hr. split; [reflexivity|]. split; [exact Hwf|].
    split; reflexivity.
Qed.

Lemma rotate_wf rl now :
  sketch_wf (NewSketch L O (getWithDefault (rlEpsilon rl) DefaultEpsilon)
               (getWithDefault (rlDelta rl) DefaultDelta)) ->
  rolling_wf rl -> Forall bucket_wf (rotate L O rl now) /\ rotate L O rl now <> [].
Proof.
  intros Hnew Hwf. unfold rotate, rolling_wf in *.
  assert (Hb : forall t, bucket_wf
            (mkBucket (Some (NewSketch L O (getWithDefault (rlEpsilon rl) DefaultEpsilon)
                               (getWithDefault (rlDelta rl) DefaultDelta))) t)).
  { intros t r Hr. simpl in Hr. inversion Hr; subst. exact Hnew. }
  destruct (last (buckets rl)) as [newest|] eqn:Hlast.
  - destruct (_ >=? Interval rl).
    + destruct (_ >=? NumIntervals rl).
      * split; [|intros H; apply app_eq_nil in H as [_ H]; discriminate].
        apply Forall_app. split; [apply Forall_drop, Hwf|]. constructor; [apply Hb|constructor].
      * split; [|intros H; apply app_eq_nil in H as [_ H]; discriminate].
        apply Forall_app. split; [exact Hwf|]. constructor; [apply Hb|constructor].
    + split; [exact Hwf|]. intros H. rewrite H in Hlast. discriminate.
  - split; [|discriminate]. constructor; [apply Hb|constructor].
Qed.

Lemma rollingCounter_count_wf rl key delta now interval :
  sketch_wf (NewSketch L O (getWithDefault (rlEpsilon rl) DefaultEpsilon)
               (getWithDefault (rlDelta rl) DefaultDelta)) ->
  rolling_wf rl ->
  exists res,
    (rollingCounter_count L O rl key delta now interval).2 = Some res /\
    rolling_wf (rollingCounter_count L O rl key delta now interval).1 /\
    buckets (rollingCounter_count L O rl key delta now interval).1 <> [].
Proof.
  intros Hnew Hwf. destruct (rotate_wf rl now Hnew Hwf) as [Hbs Hne].
  unfold rollingCounter_count.
  destruct (last (rotate L O rl now)) as [newest|] eqn:Hlast;
    [|apply last_None in Hlast; contradiction].
  assert (Hnw : bucket_wf newest).
  { rewrite Forall_lookup in Hbs. rewrite last_lookup in Hlast. eapply Hbs, Hlast. }
  destruct (sketchWithTime_Count_wf newest key delta Hnw) as (b' & v & -> & Hb' & _ & _).
  set (rl' := mkRolling _ _ _ _ _).
  assert (Hwf' : rolling_wf rl').
  { unfold rolling_wf, rl'. simpl. apply Forall_insert; assumption. }
  destruct (rollingCounter_query_total rl' key now interval v Hwf') as [res Hres].
  exists res. simpl. split; [exact Hres|]. split; [exact Hwf'|].
  unfold rl'. simpl. intros H. apply (f_equal length) in H.
  rewrite length_insert in H. destruct (rotate L O rl now); [contradiction|discriminate].
Qed.

End NoPanic.



(** ** [Count] answers as the [Query] that follows it *)

Lemma bucket_count_latest rl key v i b :
  buckets rl !! i = Some b ->
  (b' ← last (buckets rl); sketchWithTime_Query b' key) = Some v ->
  bucket_count rl key v i b = bucket_count rl key 0 i b.
Proof.
  intros Hb Hlast. unfold bucket_count.
  destruct (Z.eqb_spec (Z.of_nat i) (Z.of_nat (length (buckets rl)) - 1)) as [Hi|];
    [|reflexivity].
  simpl. destruct (Z.eqb_spec v 0) as [->|]; [reflexivity|]. simpl.
  rewrite last_lookup in Hlast.
  replace (pred (length (buckets rl))) with i in Hlast by lia.
  rewrite Hb in Hlast. simpl in Hlast. rewrite Hlast. reflexivity.
Qed.

Lemma query_loop_latest rl key intervalStart v :
  (b' ← last (buckets rl); sketchWithTime_Query b' key) = Some v ->
  forall fuel now interval tc td,
  query_loop rl key intervalStart v fuel now interval tc td =
  query_loop rl key intervalStart 0 fuel now interval tc td.
Proof.
  intros Hlast. induction fuel as [|i IH]; intros now interval tc td; [reflexivity|].
  simpl. destruct (interval >? 0); [|reflexivity].
  destruct (buckets rl !! i) as [b|] eqn:Hb; [|reflexivity].
  unfold query_body. rewrite (bucket_count_latest rl key v i b Hb Hlast).
  fold (query_body rl key intervalStart 0 i b now interval).
  destruct (query_body rl key intervalStart 0 i b now interval)
    as [[| |n d interval']|]; try reflexivity; apply IH.
Qed.

(** X6. On a counter whose sketches are as the constructor builds them,
    [Count(key, delta, interval)] returns exactly the rate that
    [Query(key, interval)] returns right after it, at the same clock reading:
    passing the updated count of the newest bucket to the walk changes
    nothing but the work. *)
Theorem Count_returns_the_rate_Query_returns_next L O rl key delta interval now :
  sketch_wf (NewSketch L O (getWithDefault (rlEpsilon rl) DefaultEpsilon)
               (getWithDefault (rlDelta rl) DefaultDelta)) ->
  rolling_wf rl ->
  (rollingCounter_Count L O rl key delta interval now).2 =
  rollingCounter_Query (rollingCounter_Count L O rl key delta interval now).1
    key interval now.
Proof.
  intros Hnew Hwf. destruct (rotate_wf L O rl now Hnew Hwf) as [Hbs Hne].
  unfold rollingCounter_Count, rollingCounter_count.
  destruct (last (rotate L O rl now)) as [newest|] eqn:Hlast;
    [|apply last_None in Hlast; contradiction].
  assert (Hnw : bucket_wf newest).
  { rewrite Forall_lookup in Hbs. rewrite last_lookup in Hlast. eapply Hbs, Hlast. }
  destruct (sketchWithTime_Count_wf newest key delta Hnw) as (b' & v & -> & _ & _ & HQ).
  set (rl' := mkRolling _ _ _ _ _). simpl.
  assert (Hlen : length (buckets rl') = length (rotate L O rl now))
    by (unfold rl'; simpl; apply length_insert).
  assert (Hpos : (0 < length (rotate L O rl now))%nat)
    by (destruct (rotate L O rl now); [contradiction|simpl; lia]).
  assert (Hlast' : (b0 ← last (buckets rl'); sketchWithTime_Query b0 key) = Some v).
  { rewrite last_lookup, Hlen. unfold rl'. simpl.
    rewrite list_lookup_insert_eq by lia. simpl. exact HQ. }
  unfold rollingCounter_Query, rollingCounter_query.
  rewrite (query_loop_latest rl' key _ v Hlast').
  destruct (Z.eqb_spec (Z.of_nat (length (buckets rl'))) 0); [lia|].
  destruct (query_loop rl' key _ 0 _ now interval 0%float 0) as [[tc td]|];
    [|reflexivity].
  simpl. destruct (td <? Second); reflexivity.
Qed.

Lemma Count_returns_the_rate_Query_returns_next_witness :
  (rollingCounter_Count refLog refOvf
     (mkRolling 0 0 Minute 3 [mkBucket (Some (mkSketch 0 0 3 2 [0; 9; 0; 9; 0; 0])) 0])
     key_bytes 4 Minute (30 * Second)).2 =
  rollingCounter_Query
    (rollingCounter_Count refLog refOvf
       (mkRolling 0 0 Minute 3 [mkBucket (Some (mkSketch 0 0 3 2 [0; 9; 0; 9; 0; 0])) 0])
       key_bytes 4 Minute (30 * Second)).1
    key_bytes Minute (30 * Second).
Proof.
  apply (Count_returns_the_rate_Query_returns_next refLog refOvf
           (mkRolling 0 0 Minute 3 [mkBucket (Some (mkSketch 0 0 3 2 [0; 9; 0; 9; 0; 0])) 0])
           key_bytes 4 Minute (30 * Second)).
  - unfold sketch_wf. vm_compute. repeat split; discriminate.
  - unfold rolling_wf. simpl. constructor; [|constructor].
    intros r Hr. inversion Hr; subst. unfold sketch_wf. simpl. lia.
Defined.

(** ** Walks that find nothing *)

Lemma query_loop_all_skipped rl key intervalStart latest now :
  Forall (fun b => now <= Time b) (buckets rl) ->
  forall fuel interval tc td,
  (fuel <= length (buckets rl))%nat ->
  query_loop rl key intervalStart latest fuel now interval tc td = Some (tc, td).
Proof.
  intros Hall. induction fuel as [|i IH]; intros interval tc td Hlen; [reflexivity|].
  simpl. destruct (interval >? 0); [|reflexivity].
  destruct (lookup_lt_is_Some_2 (buckets rl) i ltac:(lia)) as [b Hb]. rewrite Hb.
  rewrite Forall_lookup in Hall. pose proof (Hall i b Hb) as Hle.
  unfold query_body. rewrite Time_Sub_clamp.
  destruct (Z.leb_spec (Z.max MinInt64 (Z.min (now - Time b) MaxInt64)) 0) as [|Hd];
    [apply IH; lia|unfold MinInt64, MaxInt64 in Hd; lia].
Qed.

Lemma rollingCounter_query_before_buckets rl key interval now latest :
  Forall (fun b => now <= Time b) (buckets rl) ->
  rollingCounter_query rl key now interval latest = Some (0%float, 0).
Proof.
  intros Hall. unfold rollingCounter_query.
  rewrite query_loop_all_skipped by (assumption || lia). reflexivity.
Qed.

(** X7. Going back in time is harmless. When the clock reads an instant at or
    before the start of every bucket, the walk skips every bucket without
    reading a sketch and [Query] returns 0, for every interval and even on a
    counter whose sketches would panic. *)
Theorem Query_before_every_bucket_is_zero rl key interval now latest :
  Forall (fun b => now <= Time b) (buckets rl) ->
  rollingCounter_query rl key now interval latest = Some (0%float, 0) /\
  rollingCounter_Query rl key interval now = Some 0%float.
Proof.
  intros Hall.
  split; [apply rollingCounter_query_before_buckets, Hall|]. unfold rollingCounter_Query.
  destruct (_ =? 0); [reflexivity|].
  rewrite rollingCounter_query_before_buckets by exact Hall. reflexivity.
Qed.

Lemma Query_before_every_bucket_is_zero_witness :
  rollingCounter_Query
    (mkRolling 0 0 Minute 3
       [mkBucket (Some (mkSketch 0 0 0 2 [])) Minute; mkBucket None (2 * Minute)])
    key_bytes Hour (30 * Second) = Some 0%float.
Proof.
  apply (Query_before_every_bucket_is_zero
           (mkRolling 0 0 Minute 3
              [mkBucket (Some (mkSketch 0 0 0 2 [])) Minute; mkBucket None (2 * Minute)])
           key_bytes Hour (30 * Second) 0).
  simpl. repeat constructor; simpl; unfold Minute, Second; lia.
Defined.


(** ** The first write *)

Lemma rollingCounter_count_first L O rl key delta now interval :
  buckets rl = [] ->
  sketch_wf (NewSketch L O (getWithDefault (rlEpsilon rl) DefaultEpsilon)
               (getWithDefault (rlDelta rl) DefaultDelta)) ->
  (rollingCounter_count L O rl key delta now interval).2 = Some (0%float, 0) /\
  Time <$> buckets (rollingCounter_count L O rl key delta now interval).1 = [now].
Proof.
  intros Hempty Hnew. unfold rollingCounter_count, rotate. rewrite Hempty. simpl.
  set (fresh := mkBucket _ now).
  assert (Hfw : bucket_wf fresh).
  { intros r Hr. unfold fresh in Hr. simpl in Hr. inversion Hr; subst. exact Hnew. }
  destruct (sketchWithTime_Count_wf fresh key delta Hfw) as (b' & v & -> & _ & HT & _).
  simpl. rewrite HT. split; [|reflexivity].
  apply rollingCounter_query_before_buckets. simpl.
  constructor; [rewrite HT; simpl; lia|constructor].
Qed.

Lemma rollup_count_loop_first L O key delta now : forall levels interval,
  Forall (fun c => buckets c = [] /\
            sketch_wf (NewSketch L O (getWithDefault (rlEpsilon c) DefaultEpsilon)
                         (getWithDefault (rlDelta c) DefaultDelta))) levels ->
  (rollup_count_loop L O levels key delta now interval 0%float 0).2 = Some (0%float, 0).
Proof.
  induction levels as [|c levels IH]; intros interval Hall; [reflexivity|].
  inversion Hall as [|? ? [Hempty Hnew] Hrest]; subst. simpl.
  destruct (rollingCounter_count_first L O c key delta now
              (if interval <? 0 then 0 else interval) Hempty Hnew) as [Hres _].
  destruct (rollingCounter_count L O c key delta now _) as [c' res]. simpl in Hres.
  rewrite Hres.
  change (0 + 0)%float with 0%float. change (s64 (0 + 0)) with 0.
  specialize (IH (s64 ((if interval <? 0 then 0 else interval) - 0)) Hrest).
  destruct (rollup_count_loop L O levels key delta now _ 0%float 0) as [levels' res'].
  exact IH.
Qed.



(** ** The order of the buckets *)

Lemma spaced_cons gap t ts : spaced gap (t :: ts) -> spaced gap ts.
Proof. destruct ts as [|u ts]; simpl; [auto|intros [_ H]; exact H]. Qed.

Lemma spaced_drop gap ts : spaced gap ts -> spaced gap (drop 1 ts).
Proof. destruct ts as [|t ts]; [auto|]. simpl. rewrite drop_0. apply spaced_cons. Qed.

Lemma spaced_snoc gap ts u :
  spaced gap ts -> (forall t, last ts = Some t -> t + gap <= u) -> spaced gap (ts ++ [u]).
Proof.
  induction ts as [|t ts IH]; intros Hs Hlast; [simpl; auto|].
  destruct ts as [|t' ts].
  - simpl. split; [apply Hlast; reflexivity|exact I].
  - destruct Hs as [Hgap Hs]. simpl. split; [exact Hgap|].
    apply IH; [exact Hs|]. intros t0 Ht0. apply Hlast. exact Ht0.
Qed.

Lemma last_drop_1 {A} (l : list A) x y :
  last l = Some x -> last (drop 1 l) = Some y -> x = y.
Proof.
  destruct l as [|a l]; [discriminate|]. simpl. rewrite drop_0.
  destruct l as [|b l]; [discriminate|]. simpl. congruence.
Qed.

Lemma rotate_spaced L O rl now :
  0 < Interval rl ->
  spaced (Interval rl) (Time <$> buckets rl) ->
  spaced (Interval rl) (Time <$> rotate L O rl now).
Proof.
  intros Hiv Hs. rewrite rotate_times.
  destruct (last (buckets rl)) as [newest|] eqn:Hlast; [|simpl; auto].
  destruct (Z.geb_spec (Time_Sub now (Time newest)) (Interval rl)) as [Hdue|]; [|exact Hs].
  assert (Hgap : Time newest + Interval rl <= now).
  { rewrite Time_Sub_clamp in Hdue. unfold MinInt64, MaxInt64 in Hdue. lia. }
  assert (HlastT : last (Time <$> buckets rl) = Some (Time newest))
    by (rewrite fmap_last, Hlast; reflexivity).
  destruct (_ >=? NumIntervals rl).
  - apply spaced_snoc; [apply spaced_drop, Hs|].
    intros t Ht. rewrite (last_drop_1 _ _ _ HlastT Ht) in Hgap. exact Hgap.
  - apply spaced_snoc; [exact Hs|]. intros t Ht. rewrite HlastT in Ht.
    inversion Ht; subst. exact Hgap.
Qed.

(** X9. The buckets of a counter made by the constructor with a positive
    interval are always in strictly increasing order of their start, each
    starting at least one interval after the one before, whatever calls are
    made and whatever the clock reads (also when it goes backwards). *)
Theorem bucket_starts_are_an_interval_apart L O epsilon delta interval num calls :
  0 < interval ->
  spaced interval
    (Time <$> buckets (run_calls L O (RollingCounter epsilon delta interval num) calls)).
Proof.
  intros Hiv.
  assert (Hinv : forall rl,
            Interval rl = interval -> spaced interval (Time <$> buckets rl) ->
            spaced interval (Time <$> buckets (run_calls L O rl calls))).
  { induction calls as [|c calls IH]; intros rl HI Hs; [exact Hs|].
    unfold run_calls in *. simpl. apply IH.
    - destruct c as [key d iv now|key iv now]; simpl; [|exact HI].
      rewrite Count_state.
      destruct (count_state L O rl key d now iv) as (_ & _ & H & _). congruence.
    - destruct c as [key d iv now|key iv now]; simpl; [|exact Hs].
      rewrite Count_state.
      destruct (count_state L O rl key d now iv) as (_ & _ & _ & _ & H).
      rewrite H, <- HI. apply rotate_spaced; rewrite HI; assumption. }
  apply Hinv; [reflexivity|simpl; exact I].
Qed.

Lemma bucket_starts_are_an_interval_apart_witness :
  spaced Minute
    (Time <$> buckets (run_calls refLog refOvf (RollingCounter 0 0 Minute 2)
       [CallCount key_bytes 1 0 (5 * Minute); CallCount key_bytes 1 0 (7 * Minute);
        CallCount key_bytes 1 0 0; CallCount key_bytes 1 0 (9 * Minute)])).
Proof.
  apply (bucket_starts_are_an_interval_apart refLog refOvf 0 0 Minute 2
           [CallCount key_bytes 1 0 (5 * Minute); CallCount key_bytes 1 0 (7 * Minute);
            CallCount key_bytes 1 0 0; CallCount key_bytes 1 0 (9 * Minute)]).
  unfold Minute, Second. lia.
Defined.

(** ** What a [Count] leaves alone *)

Lemma count_buckets L O rl key delta now interval :
  take (pred (length (rotate L O rl now)))
    (buckets (rollingCounter_count L O rl key delta now interval).1) =
  take (pred (length (rotate L O rl now))) (rotate L O rl now) /\
  length (buckets (rollingCounter_count L O rl key delta now interval).1) =
  length (rotate L O rl now).
Proof.
  unfold rollingCounter_count.
  destruct (last (rotate L O rl now)) as [newest|]; [|simpl; auto].
  destruct (sketchWithTime_Count newest key delta) as [newest' latest].
  assert (H : forall bs : list sketchWithTime,
            take (pred (length bs)) (<[pred (length bs) := newest']> bs) =
            take (pred (length bs)) bs /\
            length (<[pred (length bs) := newest']> bs) = length bs).
  { intros bs. split; [apply take_insert_ge; lia|apply length_insert]. }
  destruct latest; simpl; apply H.
Qed.

(** X10. [Count] writes to the newest bucket only. When it opens no bucket,
    all buckets but the newest are as before; when it opens one, all previous
    buckets are as before, the delta going to the new one, and when the ring
    is full the oldest bucket is the one that goes. *)
Theorem Count_leaves_older_buckets L O rl key delta interval now :
  match last (buckets rl) with
  | None => length (buckets (rollingCounter_Count L O rl key delta interval now).1) = 1%nat
  | Some newest =>
      if Time_Sub now (Time newest) >=? Interval rl then
        if Z.of_nat (length (buckets rl)) >=? NumIntervals rl then
          buckets (rollingCounter_Count L O rl key delta interval now).1 =
          drop 1 (buckets rl) ++
            drop (pred (length (buckets rl)))
              (buckets (rollingCounter_Count L O rl key delta interval now).1)
        else
          buckets (rollingCounter_Count L O rl key delta interval now).1 =
          buckets rl ++
            drop (length (buckets rl))
              (buckets (rollingCounter_Count L O rl key delta interval now).1)
      else
        take (pred (length (buckets rl)))
          (buckets (rollingCounter_Count L O rl key delta interval now).1) =
        take (pred (length (buckets rl))) (buckets rl) /\
        length (buckets (rollingCounter_Count L O rl key delta interval now).1) =
        length (buckets rl)
  end.
Proof.
  rewrite Count_state.
  destruct (count_buckets L O rl key delta now interval) as [Htake Hlen].
  revert Htake Hlen. unfold rotate at 1 2 3 4.
  set (bs' := buckets (rollingCounter_count L O rl key delta now interval).1).
  destruct (last (buckets rl)) as [newest|] eqn:Hlast; [|simpl; auto].
  assert (Hne : (0 < length (buckets rl))%nat).
  { destruct (buckets rl); [discriminate|simpl; lia]. }
  destruct (_ >=? Interval rl); [|auto].
  destruct (_ >=? NumIntervals rl).
  - rewrite length_app, length_drop. simpl.
    replace (pred (length (buckets rl) - 1 + 1)) with (length (drop 1 (buckets rl)))
      by (rewrite length_drop; lia).
    rewrite take_app_length. intros Htake Hlen.
    rewrite <- (take_drop (length (drop 1 (buckets rl))) bs') at 1.
    rewrite Htake. f_equal. f_equal. rewrite length_drop. lia.
  - rewrite length_app. simpl.
    replace (pred (length (buckets rl) + 1)) with (length (buckets rl)) by lia.
    rewrite take_app_length. intros Htake Hlen.
    rewrite <- (take_drop (length (buckets rl)) bs') at 1.
    rewrite Htake. reflexivity.
Qed.

(** ** How much the walks cover *)

Lemma rollup_walk_bound key levels now interval tc td tc' td' :
  rollup_walk key levels now interval tc td tc' td' ->
  0 <= td -> td + Z.max interval 0 <= MaxInt64 ->
  td <= td' <= td + Z.max interval 0 /\ (td' = td \/ td + Second <= td').
Proof.
  induction 1 as [levels now interval tc td Hneg|now interval tc td
                 |c levels now interval tc td n d tc' td' Hpos Hn Hwalk IH];
    intros Htd Hmax; [lia|lia|].
  assert (Hd : d = 0 \/ Second <= d <= interval).
  { apply rollingCounter_query_bound in Hn; [|lia]. destruct Hn as [[_ ->]|]; auto. }
  unfold Second in *. destruct IH as [IH1 IH2]; lia.
Qed.

(** X11. Neither walk ever claims to cover more than it was asked for: the
    duration the rolling walk returns is 0 or lies between one second and the
    interval of the query, and so does the total duration the rollup query
    accumulates over its levels. *)
Theorem covered_duration_is_within_the_interval key interval now :
  interval <= MaxInt64 ->
  (forall rl latest tc td,
     rollingCounter_query rl key now interval latest = Some (tc, td) ->
     td = 0 \/ Second <= td <= interval) /\
  (forall levels tc td,
     rollup_query_loop levels key now interval 0%float 0 = Some (tc, td) ->
     td = 0 \/ Second <= td <= interval).
Proof.
  intros Hmax. split.
  - intros rl latest tc td Hq.
    apply rollingCounter_query_bound in Hq; [|exact Hmax].
    destruct Hq as [[_ ->]|]; auto.
  - intros levels tc td Hq.
    apply rollup_loop_walk in Hq; [|lia|unfold MaxInt64 in *; lia].
    apply rollup_walk_bound in Hq; [|lia|unfold MaxInt64 in *; lia].
    unfold Second in *. lia.
Qed.

Lemma covered_duration_is_within_the_interval_witness :
  90 * Second = 0 \/ Second <= 90 * Second <= 90 * Second.
Proof.
  pose proof (covered_duration_is_within_the_interval key_bytes (90 * Second) (6 * Minute))
    as [H _]; [unfold Second, MaxInt64; lia|].
  apply (H (minute_writes refLog refOvf 0 10) 0 7%float (90 * Second)).
  vm_compute. reflexivity.
Defined.

(** ** Rates depend on differences of instants only *)

(** X12. Moving every bucket start and the clock by the same amount changes
    no answer: [Query] returns the same rate, and [Count] returns the same
    rate and leaves the same counter, moved by that amount. *)
Theorem rates_are_invariant_under_time_shift L O c rl key delta interval now :
  rollingCounter_Query (shift_counter c rl) key interval (now + c) =
    rollingCounter_Query rl key interval now /\
  rollingCounter_Count L O (shift_counter c rl) key delta interval (now + c) =
    (shift_counter c (rollingCounter_Count L O rl key delta interval now).1,
     (rollingCounter_Count L O rl key delta interval now).2).
Proof.
  split.
  - unfold rollingCounter_Query. rewrite rollingCounter_query_shift.
    simpl. rewrite length_fmap. reflexivity.
  - unfold rollingCounter_Count. rewrite rollingCounter_count_shift.
    destruct (rollingCounter_count L O rl key delta now interval). reflexivity.
Qed.

(** ** The levels of a rollup counter *)

Lemma level_intervals_cover from to :
  0 < from -> 0 < to <= MaxInt64 ->
  let n := if Z.rem to from >? 0 then s64 (s64 (Z.quot to from) + 1)
           else s64 (Z.quot to from) in
  1 <= n /\ from * (n - 1) < to <= from * n.
Proof.
  intros Hfrom Hto. unfold MaxInt64 in Hto.
  rewrite Z.quot_div_nonneg, Z.rem_mod_nonneg by lia.
  pose proof (Z.div_mod to from ltac:(lia)) as Hdm.
  pose proof (Z.mod_pos_bound to from Hfrom) as Hm.
  assert (Hq : 0 <= to / from <= to).
  { split; [apply Z.div_pos; lia|]. apply Z.div_le_upper_bound; nia. }
  rewrite (s64_small (to / from)) by (unfold MinInt64, MaxInt64; lia).
  destruct (Z.gtb_spec (to mod from) 0) as [Hr|Hr]; cbv zeta.
  - assert (to / from < to) by nia.
    rewrite s64_small by (unfold MinInt64, MaxInt64; lia). nia.
  - assert (to mod from = 0) by lia. nia.
Qed.

(** X13. For positive durations, [RollupCounter] builds one level per pair of
    consecutive durations: the level's buckets last the first duration, the
    level starts empty, and it keeps the least number of buckets (at least
    one) that together span the second duration. *)
Theorem rollup_levels_span_the_next_duration epsilon delta ds :
  ds <> [] -> Forall (fun d => 0 < d <= MaxInt64) ds ->
  exists rc,
    RollupCounter epsilon delta ds = Some rc /\
    length (Levels rc) = pred (length ds) /\
    forall i from to, ds !! i = Some from -> ds !! S i = Some to ->
      exists c, Levels rc !! i = Some c /\
        rlEpsilon c = epsilon /\ rlDelta c = delta /\
        Interval c = from /\ buckets c = [] /\
        1 <= NumIntervals c /\
        from * (NumIntervals c - 1) < to <= from * NumIntervals c.
Proof.
  intros Hne Hpos.
  destruct (rollup_levels epsilon delta ds) as [ls|] eqn:Hls.
  - exists (mkRollup ls). unfold RollupCounter. rewrite Hls.
    destruct (Z.ltb_spec (Z.of_nat (length ds) - 1) 0) as [Hlt|_].
    { destruct ds; [contradiction|simpl in Hlt; lia]. }
    split; [reflexivity|].
    destruct (rollup_levels_Some epsilon delta ds ls Hls) as [Hlen Hlook].
    split; [exact Hlen|]. intros i from to Hfrom Hto.
    rewrite Forall_lookup in Hpos.
    pose proof (Hpos i from Hfrom) as Hf. pose proof (Hpos (S i) to Hto) as Ht.
    eexists. split; [apply (Hlook i from to Hfrom Hto)|]. simpl.
    repeat (split; [reflexivity|]).
    apply level_intervals_cover; lia.
  - apply rollup_levels_None in Hls as (i & Hi & _).
    rewrite Forall_lookup in Hpos. specialize (Hpos i 0 Hi). lia.
Qed.

Lemma rollup_levels_span_the_next_duration_witness :
  exists rc,
    RollupCounter 0 0 [10 * Minute; Hour; 6 * Hour; 24 * Hour] = Some rc /\
    length (Levels rc) = 3%nat.
Proof.
  destruct (rollup_levels_span_the_next_duration 0%float 0%float
              [10 * Minute; Hour; 6 * Hour; 24 * Hour]) as (rc & Hrc & Hlen & _).
  - discriminate.
  - repeat constructor; unfold Hour, Minute, Second, MaxInt64; lia.
  - exists rc. split; [exact Hrc|exact Hlen].
Defined.

Lemma rollingCounter_count_state_any_interval L O rl key delta now interval interval' :
  (rollingCounter_count L O rl key delta now interval).1 =
  (rollingCounter_count L O rl key delta now interval').1.
Proof.
  unfold rollingCounter_count.
  destruct (last (rotate L O rl now)) as [newest|]; [|reflexivity].
  destruct (sketchWithTime_Count newest key delta) as [newest' [latest|]]; reflexivity.
Qed.

Lemma rollup_count_loop_levels L O key delta now : forall levels interval tc td,
  length (rollup_count_loop L O levels key delta now interval tc td).1 = length levels /\
  (is_Some (rollup_count_loop L O levels key delta now interval tc td).2 ->
   (rollup_count_loop L O levels key delta now interval tc td).1 =
   (fun c => (rollingCounter_Count L O c key delta 0 now).1) <$> levels).
Proof.
  induction levels as [|c levels IH]; intros interval tc td; [simpl; auto|].
  simpl.
  pose proof (rollingCounter_count_state_any_interval L O c key delta now
                (if interval <? 0 then 0 else interval) 0) as Hst.
  rewrite (Count_state L O c key delta 0 now).
  destruct (rollingCounter_count L O c key delta now (if interval <? 0 then 0 else interval))
    as [c' [[n d]|]]; simpl in Hst.
  - specialize (IH (s64 ((if interval <? 0 then 0 else interval) - d))
                  (tc + n)%float (s64 (td + d))).
    destruct (rollup_count_loop L O levels key delta now _ _ _) as [levels' res'].
    simpl in *. destruct IH as [IHlen IHmap]. split; [lia|].
    intros Hres. rewrite (IHmap Hres), Hst. reflexivity.
  - simpl. split; [reflexivity|]. intros [x Hx]. discriminate.
Qed.

(** X14. A rollup [Count] keeps the number of levels and, whenever it returns
    a rate, has recorded the delta once in every level: each level is left
    exactly as its own [Count] of that key and delta at that instant leaves
    it. *)
Theorem rollup_Count_counts_in_every_level L O rc key delta interval now :
  length (Levels (rollupCounter_Count L O rc key delta interval now).1) =
    length (Levels rc) /\
  (is_Some (rollupCounter_Count L O rc key delta interval now).2 ->
   Levels (rollupCounter_Count L O rc key delta interval now).1 =
   (fun c => (rollingCounter_Count L O c key delta 0 now).1) <$> Levels rc).
Proof.
  unfold rollupCounter_Count.
  destruct (rollup_count_loop_levels L O key delta now (Levels rc) interval 0%float 0)
    as [Hlen Hmap].
  destruct (rollup_count_loop L O (Levels rc) key delta now interval 0%float 0)
    as [levels res].
  simpl in *. split; [exact Hlen|]. intros Hres. apply Hmap.
  destruct res; [eauto|]. destruct Hres as [x Hx]. discriminate.
Qed.

Lemma rollup_Count_counts_in_every_level_witness :
  Levels (rollupCounter_Count refLog refOvf
            (mkRollup [RollingCounter 0 0 Minute 10; RollingCounter 0 0 Hour 6])
            key_bytes 1 Minute 0).1 =
  (fun c => (rollingCounter_Count refLog refOvf c key_bytes 1 0 0).1) <$>
    [RollingCounter 0 0 Minute 10; RollingCounter 0 0 Hour 6].
Proof.
  pose proof (rollup_Count_counts_in_every_level refLog refOvf
                (mkRollup [RollingCounter 0 0 Minute 10; RollingCounter 0 0 Hour 6])
                key_bytes 1 Minute 0) as [_ H].
  apply H. vm_compute. eauto.
Defined.

(** ** More on the hash *)

(** X15. The family is double hashing with the two halves of the kernel: for
    an index below 2^32 (the row numbers of any sketch that fits in memory)
    the i-th hash is the low half plus i times the high half, exactly, with no
    wrap-around; in particular the hash of row 0 is the low half. *)
Theorem hash_family_is_double_hashing key i :
  0 <= i < 2 ^ 32 ->
  hashKernel_hash (multihash key) i =
    multihash key mod 2 ^ 32 + multihash key / 2 ^ 32 * i /\
  hashKernel_hash (multihash key) 0 = multihash key mod 2 ^ 32 /\
  hashKernel_hash (multihash key) i < 2 ^ 64.
Proof.
  intros Hi. pose proof (multihash_range key) as Hk.
  assert (Hform : forall j, 0 <= j < 2 ^ 32 ->
            hashKernel_hash (multihash key) j =
            multihash key mod 2 ^ 32 + multihash key / 2 ^ 32 * j).
  { intros j Hj. rewrite hashKernel_hash_formula by exact Hk.
    change 0xFFFFFFFF with (Z.ones 32).
    rewrite Z.land_ones, Z.shiftr_div_pow2 by lia.
    pose proof (Z.mod_pos_bound (multihash key) (2 ^ 32) ltac:(lia)) as Hlo.
    assert (Hhi : 0 <= multihash key / 2 ^ 32 < 2 ^ 32).
    { split; [apply Z.div_pos; lia|]. apply Z.div_lt_upper_bound; lia. }
    apply Z.mod_small. nia. }
  split; [apply Hform, Hi|]. split.
  - rewrite Hform by lia. lia.
  - pose proof (u64_range
                  (Z.land (u64 (multihash key)) 0xffffffff
                   + u64 (Z.shiftr (u64 (multihash key)) 32 * u64 i))) as H.
    unfold hashKernel_hash. lia.
Qed.

Lemma hash_family_is_double_hashing_witness :
  hashKernel_hash (multihash key_bytes) 4 =
    multihash key_bytes mod 2 ^ 32 + multihash key_bytes / 2 ^ 32 * 4.
Proof.
  pose proof (hash_family_is_double_hashing key_bytes 4) as [H _]; [lia|exact H].
Defined.

Lemma fnv_step_injective k k' b :
  0 <= k < 2 ^ 64 -> 0 <= k' < 2 ^ 64 ->
  Z.lxor (u64 (k * fnvPrime64)) (byte_val b) = Z.lxor (u64 (k' * fnvPrime64)) (byte_val b) ->
  k = k'.
Proof.
  intros Hk Hk' H.
  apply (f_equal (fun x => Z.lxor x (byte_val b))) in H.
  rewrite !Z.lxor_assoc, !Z.lxor_nilpotent, !Z.lxor_0_r in H.
  assert (Hinv : forall x, 0 <= x < 2 ^ 64 ->
            u64 (u64 (x * fnvPrime64) * 14886173955864302971) = x).
  { intros x Hx. unfold u64. rewrite Z.mul_mod_idemp_l by lia.
    rewrite <- Z.mul_assoc, <- Z.mul_mod_idemp_r by lia.
    change ((fnvPrime64 * 14886173955864302971) mod 2 ^ 64) with 1.
    rewrite Z.mul_1_r. apply Z.mod_small, Hx. }
  rewrite <- (Hinv k Hk), <- (Hinv k' Hk'), H. reflexivity.
Qed.

Lemma byte_val_injective b b' : byte_val b = byte_val b' -> b = b'.
Proof.
  unfold byte_val. intros H. apply N2Z.inj in H.
  pose proof (Byte.of_to_N b) as Hb. pose proof (Byte.of_to_N b') as Hb'.
  rewrite H in Hb. congruence.
Qed.

Lemma multihash_loop_injective suffix : forall k k',
  0 <= k < 2 ^ 64 -> 0 <= k' < 2 ^ 64 ->
  multihash_loop suffix k = multihash_loop suffix k' -> k = k'.
Proof.
  induction suffix as [|b suffix IH]; intros k k' Hk Hk' H; [exact H|].
  simpl in H. apply IH in H.
  - eapply fnv_step_injective; eassumption.
  - apply (multihash_loop_range [b] k Hk).
  - apply (multihash_loop_range [b] k' Hk').
Qed.

Lemma multihash_loop_app pre suf k :
  multihash_loop (pre ++ suf) k = multihash_loop suf (multihash_loop pre k).
Proof. revert k. induction pre as [|a pre IH]; intros k; simpl; [reflexivity|apply IH]. Qed.

(** X16. Two keys that differ in exactly one byte never have the same kernel:
    each step of the FNV-1 fold is a bijection of the 64-bit state (the prime
    is odd), so a difference in one byte is carried to the end. *)
Theorem keys_differing_in_one_byte_have_different_kernels prefix a b suffix :
  a <> b ->
  multihash (prefix ++ a :: suffix) <> multihash (prefix ++ b :: suffix).
Proof.
  intros Hab Heq. unfold multihash in Heq.
  rewrite !multihash_loop_app in Heq. simpl in Heq.
  set (k := multihash_loop prefix (u64 fnvOffset64)) in *.
  assert (Hk : 0 <= k < 2 ^ 64) by (apply multihash_loop_range, u64_range).
  apply multihash_loop_injective in Heq.
  - apply Hab, byte_val_injective.
    apply (f_equal (Z.lxor (u64 (k * fnvPrime64)))) in Heq.
    rewrite <- !Z.lxor_assoc, !Z.lxor_nilpotent, !Z.lxor_0_l in Heq. exact Heq.
  - apply (multihash_loop_range [a] k Hk).
  - apply (multihash_loop_range [b] k Hk).
Qed.

Lemma keys_differing_in_one_byte_have_different_kernels_witness :
  multihash (list_byte_of_string "key") <> multihash (list_byte_of_string "kay").
Proof.
  apply (keys_differing_in_one_byte_have_different_kernels
           (list_byte_of_string "k") "e"%byte "a"%byte (list_byte_of_string "y")).
  discriminate.
Defined.

(** ** New sketches *)



(** ** Decoding that fails *)



(** ** Counters with at most one interval *)

Lemma rotate_single L O rl now :
  NumIntervals rl <= 1 -> (length (buckets rl) <= 1)%nat ->
  (length (Time <$> rotate L O rl now) <= 1)%nat.
Proof.
  intros Hnum Hlen. rewrite rotate_times.
  destruct (last (buckets rl)) as [newest|] eqn:Hlast; [|simpl; lia].
  assert (Hone : length (buckets rl) = 1%nat).
  { destruct (buckets rl); [discriminate|simpl in *; lia]. }
  destruct (_ >=? Interval rl); [|rewrite length_fmap; lia].
  destruct (Z.geb_spec (Z.of_nat (length (buckets rl))) (NumIntervals rl)); [|lia].
  rewrite length_app, length_drop, length_fmap. simpl. lia.
Qed.

(** X19. A counter constructed with [numIntervals] of 1, 0 or a negative
    number behaves as a counter of one interval: it never holds more than one
    bucket, every rotation replacing the bucket by a new one. *)
Theorem at_most_one_interval_keeps_one_bucket L O epsilon delta interval num calls :
  num <= 1 ->
  (length (buckets (run_calls L O (RollingCounter epsilon delta interval num) calls))
   <= 1)%nat.
Proof.
  intros Hnum.
  assert (Hinv : forall rl,
            NumIntervals rl = num -> (length (buckets rl) <= 1)%nat ->
            (length (buckets (run_calls L O rl calls)) <= 1)%nat).
  { induction calls as [|c calls IH]; intros rl HN Hlen; [exact Hlen|].
    unfold run_calls in *. simpl. apply IH.
    - destruct c as [key d iv now|key iv now]; simpl; [|exact HN].
      rewrite Count_state.
      destruct (count_state L O rl key d now iv) as (_ & _ & _ & H & _). congruence.
    - destruct c as [key d iv now|key iv now]; simpl; [|exact Hlen].
      rewrite Count_state.
      destruct (count_state L O rl key d now iv) as (_ & _ & _ & _ & H).
      rewrite <- (length_fmap Time), H. apply rotate_single; [lia|exact Hlen]. }
  apply Hinv; [reflexivity|simpl; lia].
Qed.

Lemma at_most_one_interval_keeps_one_bucket_witness :
  (length (buckets (run_calls refLog refOvf (RollingCounter 0 0 Minute (-3))
      [CallCount key_bytes 1 0 0; CallCount key_bytes 1 0 Minute;
       CallCount key_bytes 1 0 (3 * Minute)])) <= 1)%nat.
Proof.
  apply (at_most_one_interval_keeps_one_bucket refLog refOvf 0 0 Minute (-3)
           [CallCount key_bytes 1 0 0; CallCount key_bytes 1 0 Minute;
            CallCount key_bytes 1 0 (3 * Minute)]).
  lia.
Defined.
